(** * fntwo (vanezo): the VMC decoder, the pose store, the camera pool and
      the receiver switch, embedded from [main.go] and [cmd/cmd.go].

    Go strings are byte strings: they are [string] (a list of [ascii], one
    per byte).  Structs with a handful of fields are records; the two large
    homogeneous structs ([vrmBones], [vrmFaceBlendShapes]) are the list of
    their field values in declaration order, next to the list of their JSON
    tags, which is how encoding/json sees them.  Handlers thread the
    package-level [liveVRM] explicitly and return an [outcome], which also
    records a run-time panic. *)

From Stdlib Require Import ZArith NArith Ascii String Bool Lia.
From Stdlib Require Import Floats.SpecFloat.
From stdpp Require Import base option list strings gmap fin_maps.

Open Scope string_scope.
Open Scope list_scope.
Set Warnings "-register-all".

(** ** Results of fallible Go functions, and panics *)

(** A Go function returning [(T, error)]. *)
Inductive result (A : Type) : Type :=
| Ok (a : A)
| Err (msg : string).
Arguments Ok {A} a.
Arguments Err {A} msg.

#[export] Instance result_bind : MBind result := λ A B k r,
  match r with
  | Ok a => k a
  | Err e => Err e
  end.

(** A call returns, panics, or blocks for ever.  Nothing in the source
    recovers, so a panic in a handler ends the process. *)
Inductive outcome (A : Type) : Type :=
| Returned (a : A)
| Panicked (why : string)
| Blocked.
Arguments Returned {A} a.
Arguments Panicked {A} why.
Arguments Blocked {A}.

#[export] Instance outcome_bind : MBind outcome := λ A B k o,
  match o with
  | Returned a => k a
  | Panicked w => Panicked w
  | Blocked => Blocked
  end.

(** [s[i]] on a slice: out of range is a run-time panic. *)
Definition index {A : Type} (s : list A) (i : nat) : outcome A :=
  match s !! i with
  | Some a => Returned a
  | None => Panicked "index out of range"
  end.

(** [s[1:]]: panics on the empty slice. *)
Definition sliceFrom1 {A : Type} (s : list A) : outcome (list A) :=
  match s with
  | [] => Panicked "slice bounds out of range"
  | _ :: t => Returned t
  end.

(** ** float32

    A [float32] is an IEEE 754 binary32 value: a [spec_float] that is
    [valid_binary] at precision 24 and maximal exponent 128.  Comparisons are
    the IEEE ones: every comparison with a NaN is false. *)
Abbreviation float32 := spec_float (only parsing).
Definition is_float32 (f : float32) : bool := valid_binary 24 128 f.

Definition f32_zero : float32 := S754_zero false.
Definition f32_one : float32 := S754_finite false 8388608 (-23).

Definition f32_lt (a b : float32) : bool := SFltb a b.
Definition f32_gt (a b : float32) : bool := SFltb b a.
Definition f32_le (a b : float32) : bool := SFleb a b.

Definition isNaN (f : float32) : bool :=
  match f with S754_nan => true | _ => false end.
Definition isInf (f : float32) : bool :=
  match f with S754_infinity _ => true | _ => false end.

(** ** The data model of [main.go] *)

Record objPosition : Type := mkPosition
  { pos_X : float32; pos_Y : float32; pos_Z : float32 }.

Record objQuaternionRotation : Type := mkQuaternion
  { quat_X : float32; quat_Y : float32; quat_Z : float32; quat_W : float32 }.

Record objSphericalRotation : Type := mkSpherical
  { AzimuthAngle : float32; PolarAngle : float32 }.

Record boneRotation : Type := mkRotation
  { Quaternion : objQuaternionRotation; Spherical : objSphericalRotation }.

Record vrmBone : Type := mkBone
  { Position : objPosition; Rotation : boneRotation }.

Record cameraType : Type := mkCamera
  { cam_Position : objPosition; cam_Target : objPosition }.

(** [vrmFaceBlendShapes]: 52 [float32] fields.  The struct is the list of
    its field values in declaration order; these are their JSON tags. *)
Abbreviation vrmFaceBlendShapes := (list float32) (only parsing).

Definition faceTags : list string :=
  [ "EyeBlinkLeft"; "EyeLookDownLeft"; "EyeLookInLeft"; "EyeLookOutLeft";
    "EyeLookUpLeft"; "EyeSquintLeft"; "EyeWideLeft"; "EyeBlinkRight";
    "EyeLookDownRight"; "EyeLookInRight"; "EyeLookOutRight";
    "EyeLookUpRight"; "EyeSquintRight"; "EyeWideRight"; "JawForward";
    "JawLeft"; "JawRight"; "JawOpen"; "MouthClose"; "MouthFunnel";
    "MouthPucker"; "MouthLeft"; "MouthRight"; "MouthSmileLeft";
    "MouthSmileRight"; "MouthFrownLeft"; "MouthFrownRight";
    "MouthDimpleLeft"; "MouthDimpleRight"; "MouthStretchLeft";
    "MouthStretchRight"; "MouthRollLower"; "MouthRollUpper";
    "MouthShrugLower"; "MouthShrugUpper"; "MouthPressLeft";
    "MouthPressRight"; "MouthLowerDownLeft"; "MouthLowerDownRight";
    "MouthUpperUpLeft"; "MouthUpperUpRight"; "BrowDownLeft";
    "BrowDownRight"; "BrowInnerUp"; "BrowOuterUpLeft"; "BrowOuterUpRight";
    "CheekPuff"; "CheekSquintLeft"; "CheekSquintRight"; "NoseSneerLeft";
    "NoseSneerRight"; "TongueOut" ].

(** [vrmBones]: 56 [vrmBone] fields, in declaration order, with their JSON
    tags and their Go field names. *)
Abbreviation vrmBones := (list vrmBone) (only parsing).

Definition boneTags : list string :=
  [ "hips"; "left_upper_leg"; "right_upper_leg"; "left_lower_leg";
    "right_lower_leg"; "left_foot"; "right_foot"; "spine"; "chest";
    "upper_chest"; "neck"; "head"; "left_shoulder"; "right_shoulder";
    "left_upper_arm"; "right_upper_arm"; "left_lower_arm";
    "right_lower_arm"; "left_hand"; "right_hand"; "left_toes"; "right_toes";
    "left_eye"; "right_eye"; "jaw"; "left_thumb_proximal";
    "left_thumb_intermediate"; "left_thumb_distal"; "left_index_proximal";
    "left_index_intermediate"; "left_index_distal"; "left_middle_proximal";
    "left_middle_intermediate"; "left_middle_distal"; "left_ring_proximal";
    "left_ring_intermediate"; "left_ring_distal"; "left_little_proximal";
    "left_little_intermediate"; "left_little_distal";
    "right_thumb_proximal"; "right_thumb_intermediate";
    "right_thumb_distal"; "right_index_proximal";
    "right_index_intermediate"; "right_index_distal";
    "right_middle_proximal"; "right_middle_intermediate";
    "right_middle_distal"; "right_ring_proximal"; "right_ring_intermediate";
    "right_ring_distal"; "right_little_proximal";
    "right_little_intermediate"; "right_little_distal"; "last_bone" ].

Definition boneFieldNames : list string :=
  [ "Hips"; "LeftUpperLeg"; "RightUpperLeg"; "LeftLowerLeg";
    "RightLowerLeg"; "LeftFoot"; "RightFoot"; "Spine"; "Chest";
    "UpperChest"; "Neck"; "Head"; "LeftShoulder"; "RightShoulder";
    "LeftUpperArm"; "RightUpperArm"; "LeftLowerArm"; "RightLowerArm";
    "LeftHand"; "RightHand"; "LeftToes"; "RightToes"; "LeftEye"; "RightEye";
    "Jaw"; "LeftThumbProximal"; "LeftThumbIntermediate"; "LeftThumbDistal";
    "LeftIndexProximal"; "LeftIndexIntermediate"; "LeftIndexDistal";
    "LeftMiddleProximal"; "LeftMiddleIntermediate"; "LeftMiddleDistal";
    "LeftRingProximal"; "LeftRingIntermediate"; "LeftRingDistal";
    "LeftLittleProximal"; "LeftLittleIntermediate"; "LeftLittleDistal";
    "RightThumbProximal"; "RightThumbIntermediate"; "RightThumbDistal";
    "RightIndexProximal"; "RightIndexIntermediate"; "RightIndexDistal";
    "RightMiddleProximal"; "RightMiddleIntermediate"; "RightMiddleDistal";
    "RightRingProximal"; "RightRingIntermediate"; "RightRingDistal";
    "RightLittleProximal"; "RightLittleIntermediate"; "RightLittleDistal";
    "LastBone" ].

Record vrmBlendShapes : Type := mkBlendShapes
  { DynamicBlendShapes : gmap string float32;
    FaceBlendShapes : vrmFaceBlendShapes }.

Record vrmType : Type := mkVRM
  { Bones : vrmBones; BlendShapes : vrmBlendShapes }.

Definition zeroPosition : objPosition := mkPosition f32_zero f32_zero f32_zero.
Definition zeroBone : vrmBone :=
  mkBone zeroPosition
    (mkRotation (mkQuaternion f32_zero f32_zero f32_zero f32_zero)
                (mkSpherical f32_zero f32_zero)).

(** [liveVRM = vrmType{}]: every field at its zero value. *)
Definition liveVRM_init : vrmType :=
  mkVRM (replicate (List.length boneTags) zeroBone)
        (mkBlendShapes ∅ (replicate (List.length faceTags) f32_zero)).

(** ** OSC messages (go-osc)

    [Arguments] is a [[]interface{}]; these are the dynamic types go-osc
    produces when it parses a packet. *)
Inductive oscArg : Type :=
| ArgInt32 (n : Z)
| ArgFloat32 (f : float32)
| ArgString (s : string)
| ArgBlob (b : string)
| ArgInt64 (n : Z)
| ArgFloat64 (f : spec_float)
| ArgBool (b : bool)
| ArgNil
| ArgTimetag (t : Z).

Record oscMessage : Type := mkMessage
  { Address : string; Arguments : list oscArg }.

(** ** JSON

    The bytes [json.Marshal] writes and [json.Unmarshal] reads are
    represented by the JSON value they spell.  A number is the [float32] its
    literal denotes (a literal outside the range of [float32], which Go
    refuses with a type error, has no representation here); an object keeps
    its members in order. *)
Inductive json : Type :=
| JNull
| JBool (b : bool)
| JNumber (f : float32)
| JString (s : string)
| JArray (elems : list json)
| JObject (members : list (string * json)).

(** A field of a struct as encoding/json sees it: its JSON name and the
    decoding of a value into that field of the struct, in place.  The
    boolean reports an [UnmarshalTypeError]: the decoder records it, skips
    the value and goes on. *)
Record structField (S : Type) : Type := mkField
  { fieldName : string; fieldDecode : json → S → S * bool }.
Arguments mkField {S} fieldName fieldDecode.
Arguments fieldName {S} _.
Arguments fieldDecode {S} _ _ _.

(** ** The camera pool of [main.go]

    A client's channel lives on the heap: a [websocketClient] holds a
    reference to it, [nil] being [None], and so does the goroutine that
    receives from it.  A channel records the values sent on it, in order,
    and whether it was closed.  Every client has a goroutine receiving from
    its channel, so a send on an open channel completes.

    [BroadcastChannel] belongs to the pool alone and is never closed: it is
    the list of the values sent on it that [start] has not received yet. *)
Record chanState : Type := mkChan
  { sent : list cameraType; closed : bool }.

Record websocketClient : Type := mkClient
  { ID : string; Channel : option nat }.

Record websocketPool : Type := mkPool
  { Clients : gmap string websocketClient;
    BroadcastChannel : list cameraType;
    heap : list chanState }.

(** ** The router of [cmd/cmd.go] *)

(** Modelled from the spec: [config.Scene] and [obj.Camera] are declared
    outside the given sources.  The data model of the specification gives
    the camera a position and a target, each [x], [y], [z], which is the
    [cameraType] of [main.go]; of the scene, the router uses the camera
    only. *)
Record Scene : Type := mkScene { Camera : cameraType }.

(** What [ws.ReadJSON] finds on the connection: a frame holding a JSON
    value, or a failed read (closed connection, text that is not JSON). *)
Inductive wsRead : Type :=
| ReadFrame (j : json)
| ReadFailed.

(** The calls the camera routes make on the connection and on the pool
    ([pool.Pool], outside the given sources). *)
Inductive routerEvent : Type :=
| PoolUpdate (c : cameraType)        (* cameraPool.Update(c) *)
| WriteJSON (c : cameraType)         (* ws.WriteJSON(c) *)
| ClientDelete                       (* client.Delete() *)
| Close.                             (* ws.Close() *)

(** A [*receivers.MotionReceiver]: a pointer, [None] for [nil].  The type
    and its methods [Start] and [Stop] are outside the given sources; the
    router's calls of them are recorded, not interpreted. *)
Definition receiverPtr : Type := option nat.

(** The calls on the receivers, in the order they are made. *)
Inductive receiverEvent : Type :=
| CallStop (r : receiverPtr)
| CallStart (r : receiverPtr).

(** The state the receiver routes share: [appConfig.Receiver] and the
    captured variable [activeReceiver]. *)
Record routerState : Type := mkRouter
  { Receiver : string; activeReceiver : receiverPtr }.

#[export] Instance receiverEvent_eq_dec : EqDecision receiverEvent.
Proof. solve_decision. Defined.

(** How many times [e] occurs among the calls. *)
Definition calls_of (e : receiverEvent) (calls : list receiverEvent) : nat :=
  List.length (filter (λ x, x = e) calls).

(** A camera update that carries only some of the six coordinates, and the
    JSON object a client sends for it. *)
Record positionUpdate : Type := mkPositionUpdate
  { upd_X : option float32; upd_Y : option float32; upd_Z : option float32 }.

Record cameraUpdate : Type := mkCameraUpdate
  { upd_Position : option positionUpdate; upd_Target : option positionUpdate }.

Definition member (key : string) (v : option json) : list (string * json) :=
  match v with
  | Some j => [(key, j)]
  | None => []
  end.

Definition renderPosition (u : positionUpdate) : json :=
  JObject (member "x" (JNumber <$> upd_X u) ++
           member "y" (JNumber <$> upd_Y u) ++
           member "z" (JNumber <$> upd_Z u)).

Definition renderCamera (u : cameraUpdate) : json :=
  JObject (member "position" (renderPosition <$> upd_Position u) ++
           member "target" (renderPosition <$> upd_Target u)).

(** The update laid over a camera, coordinate by coordinate. *)
Definition mergePosition (u : option positionUpdate) (p : objPosition)
  : objPosition :=
  match u with
  | None => p
  | Some u =>
      mkPosition (default (pos_X p) (upd_X u)) (default (pos_Y p) (upd_Y u))
                 (default (pos_Z p) (upd_Z u))
  end.

Definition mergeCamera (u : cameraUpdate) (c : cameraType) : cameraType :=
  mkCamera (mergePosition (upd_Position u) (cam_Position c))
           (mergePosition (upd_Target u) (cam_Target c)).

(** The update that carries all six coordinates of [c]. *)
Definition fullUpdate (c : cameraType) : cameraUpdate :=
  let all p := Some (mkPositionUpdate (Some (pos_X p)) (Some (pos_Y p))
                                      (Some (pos_Z p))) in
  mkCameraUpdate (all (cam_Position c)) (all (cam_Target c)).

Section Fntwo.

(** The two places where the Go standard library consults its Unicode
    tables.  Both are only reached for a string with a byte above 0x7F; on
    ASCII strings the library code below is complete. *)
Variable unicode_ToLower : string → string.
Variable unicode_EqualFold : string → string → bool.

(** ** Bytes and strings *)

Definition byte_in (lo hi c : ascii) : bool :=
  (N_of_ascii lo <=? N_of_ascii c)%N && (N_of_ascii c <=? N_of_ascii hi)%N.

(** The character classes [[A-Z]], [[a-z]] and [[0-9]]. *)
Definition isUpper (c : ascii) : bool := byte_in "A" "Z" c.
Definition isLower (c : ascii) : bool := byte_in "a" "z" c.
Definition isDigit (c : ascii) : bool := byte_in "0" "9" c.

(** [c < utf8.RuneSelf] *)
Definition isASCIIByte (c : ascii) : bool := (N_of_ascii c <? 128)%N.

Fixpoint isASCII (s : string) : bool :=
  match s with
  | EmptyString => true
  | String c r => isASCIIByte c && isASCII r
  end.

(** [c += 'a' - 'A'] for an upper-case byte. *)
Definition lowerByte (c : ascii) : ascii :=
  if isUpper c then ascii_of_N (N_of_ascii c + 32) else c.

Fixpoint mapBytes (f : ascii → ascii) (s : string) : string :=
  match s with
  | EmptyString => EmptyString
  | String c r => String (f c) (mapBytes f r)
  end.

(** [strings.ToLower]: the ASCII fast path maps every byte; any other
    string goes through [strings.Map(unicode.ToLower, s)]. *)
Definition strings_ToLower (s : string) : string :=
  if isASCII s then mapBytes lowerByte s else unicode_ToLower s.

(** ** The regular-expression replacements

    [Regexp.ReplaceAllString] rewrites the leftmost, non-overlapping matches
    from left to right.  Each pattern of the source is a scanner of its own. *)

(** [([a-z])([A-Z])] replaced by [${1}_${2}]. *)
Fixpoint replaceLowerUpper (s : string) : string :=
  match s with
  | EmptyString => EmptyString
  | String a r =>
      match r with
      | String b t =>
          if isLower a && isUpper b
          then String a (String "_" (String b (replaceLowerUpper t)))
          else String a (replaceLowerUpper r)
      | EmptyString => String a EmptyString
      end
  end.

(** [([a-z0-9])([A-Z])] replaced by [${1}_${2}]. *)
Fixpoint replaceAlnumUpper (s : string) : string :=
  match s with
  | EmptyString => EmptyString
  | String a r =>
      match r with
      | String b t =>
          if (isLower a || isDigit a) && isUpper b
          then String a (String "_" (String b (replaceAlnumUpper t)))
          else String a (replaceAlnumUpper r)
      | EmptyString => String a EmptyString
      end
  end.

(** [.] matches every byte but the line feed. *)
Definition isDot (c : ascii) : bool := negb (Ascii.eqb c "010").

(** [(.)([A-Z][a-z]+)] replaced by [${1}_${2}].  [run] is true while the
    scanner is inside the greedy [[a-z]+] of a match it has begun. *)
Fixpoint replaceFirstCap (run : bool) (s : string) : string :=
  match s with
  | EmptyString => EmptyString
  | String a r =>
      if run && isLower a then String a (replaceFirstCap true r)
      else
        match r with
        | String b (String c t) =>
            if isDot a && isUpper b && isLower c
            then String a (String "_" (String b (String c (replaceFirstCap true t))))
            else String a (replaceFirstCap false r)
        | _ => String a (replaceFirstCap false r)
        end
  end.

(** A pattern anchored by [$] (no flag [m]) matches at the end of the text
    only: [suffix$] replaced by [repl]. *)
Fixpoint replaceEnding (suffix repl s : string) : string :=
  if String.eqb s suffix then repl
  else
    match s with
    | EmptyString => EmptyString
    | String c r => String c (replaceEnding suffix repl r)
    end.

(** [regexp.Compile] of the constant patterns of the source: all five are
    well-formed, the error branch of each caller is dead. *)
Inductive pattern : Type :=
| PatLowerUpper   (* ([a-z])([A-Z]) *)
| PatEndingL      (* _(l)$ *)
| PatEndingR      (* _r$ *)
| PatFirstCap     (* (.)([A-Z][a-z]+) *)
| PatAllCap.      (* ([a-z0-9])([A-Z]) *)

Definition regexp_Compile (p : pattern) : result pattern := Ok p.

(** [re.ReplaceAllString(src, repl)] at the replacement the source passes
    to each pattern. *)
Definition ReplaceAllString (re : pattern) (src : string) : string :=
  match re with
  | PatLowerUpper => replaceLowerUpper src
  | PatEndingL => replaceEnding "_l" "_left" src
  | PatEndingR => replaceEnding "_r" "_right" src
  | PatFirstCap => replaceFirstCap false src
  | PatAllCap => replaceAlnumUpper src
  end.

(** ** Key normalisation *)

Definition normalizeVMCKey (str : string) : result string :=
  matchAllLowerUpper ← regexp_Compile PatLowerUpper ;
  matchEndingL ← regexp_Compile PatEndingL ;
  matchEndingR ← regexp_Compile PatEndingR ;
  let str := ReplaceAllString matchAllLowerUpper str in
  let str := strings_ToLower str in
  let str := ReplaceAllString matchEndingL str in
  let str := ReplaceAllString matchEndingR str in
  Ok str.

Definition camelToSnake (str : string) : result string :=
  matchFirstCap ← regexp_Compile PatFirstCap ;
  matchAllCap ← regexp_Compile PatAllCap ;
  let snake := ReplaceAllString matchFirstCap str in
  let snake := ReplaceAllString matchAllCap snake in
  Ok (strings_ToLower snake).


(** ** encoding/json *)

(** The case-insensitive comparison of a field name with an object key
    (the [equalFold] of a field: ASCII letters compare without case, every
    other byte exactly).  The field names of this program are ASCII; a key
    with a byte above 0x7F is compared through the Unicode tables. *)
Definition equalFold (name key : string) : bool :=
  if isASCII key
  then String.eqb (mapBytes lowerByte name) (mapBytes lowerByte key)
  else unicode_EqualFold name key.

(** The field an object key selects: the field of that exact name, and
    failing that the first field whose name matches without case. *)
Definition findField {S : Type} (fields : list (structField S)) (key : string)
  : option (structField S) :=
  match find (λ f, String.eqb (fieldName f) key) fields with
  | Some f => Some f
  | None => find (λ f, equalFold (fieldName f) key) fields
  end.

(** Decoding the members of an object into a struct, in order.  A member
    whose key selects no field is skipped. *)
Fixpoint decodeMembers {S : Type} (fields : list (structField S))
    (members : list (string * json)) (s : S) : S * bool :=
  match members with
  | [] => (s, false)
  | (key, v) :: rest =>
      let '(s1, e1) :=
        match findField fields key with
        | Some f => fieldDecode f v s
        | None => (s, false)
        end in
      let '(s2, e2) := decodeMembers fields rest s1 in
      (s2, e1 || e2)
  end.

(** A value decoded into a struct: an object is decoded member by member
    into the struct as it stands, [null] leaves it alone, anything else is a
    type error that leaves it alone. *)
Definition decodeStruct {S : Type} (fields : list (structField S))
    (j : json) (s : S) : S * bool :=
  match j with
  | JObject members => decodeMembers fields members s
  | JNull => (s, false)
  | _ => (s, true)
  end.

(** A value decoded into a [float32]. *)
Definition decodeFloat32 (j : json) (old : float32) : float32 * bool :=
  match j with
  | JNumber f => (f, false)
  | JNull => (old, false)
  | _ => (old, true)
  end.

(** The field at position [i] of a struct kept as the list of its field
    values. *)
Definition listField {A : Type} (dec : json → A → A * bool)
    (i : nat) (tag : string) : structField (list A) :=
  mkField tag (λ j s,
    match s !! i with
    | Some a => let '(a', e) := dec j a in (<[i := a']> s, e)
    | None => (s, false)
    end).

Definition objPosition_fields : list (structField objPosition) :=
  [ mkField "x" (λ j s, let '(v, e) := decodeFloat32 j (pos_X s) in
                        (mkPosition v (pos_Y s) (pos_Z s), e));
    mkField "y" (λ j s, let '(v, e) := decodeFloat32 j (pos_Y s) in
                        (mkPosition (pos_X s) v (pos_Z s), e));
    mkField "z" (λ j s, let '(v, e) := decodeFloat32 j (pos_Z s) in
                        (mkPosition (pos_X s) (pos_Y s) v, e)) ].

Definition objQuaternionRotation_fields
  : list (structField objQuaternionRotation) :=
  [ mkField "x" (λ j s, let '(v, e) := decodeFloat32 j (quat_X s) in
                        (mkQuaternion v (quat_Y s) (quat_Z s) (quat_W s), e));
    mkField "y" (λ j s, let '(v, e) := decodeFloat32 j (quat_Y s) in
                        (mkQuaternion (quat_X s) v (quat_Z s) (quat_W s), e));
    mkField "z" (λ j s, let '(v, e) := decodeFloat32 j (quat_Z s) in
                        (mkQuaternion (quat_X s) (quat_Y s) v (quat_W s), e));
    mkField "w" (λ j s, let '(v, e) := decodeFloat32 j (quat_W s) in
                        (mkQuaternion (quat_X s) (quat_Y s) (quat_Z s) v, e)) ].

Definition objSphericalRotation_fields
  : list (structField objSphericalRotation) :=
  [ mkField "azimuth" (λ j s, let '(v, e) := decodeFloat32 j (AzimuthAngle s) in
                              (mkSpherical v (PolarAngle s), e));
    mkField "polar" (λ j s, let '(v, e) := decodeFloat32 j (PolarAngle s) in
                            (mkSpherical (AzimuthAngle s) v, e)) ].

Definition boneRotation_fields : list (structField boneRotation) :=
  [ mkField "quaternion" (λ j s,
      let '(v, e) := decodeStruct objQuaternionRotation_fields j (Quaternion s) in
      (mkRotation v (Spherical s), e));
    mkField "spherical" (λ j s,
      let '(v, e) := decodeStruct objSphericalRotation_fields j (Spherical s) in
      (mkRotation (Quaternion s) v, e)) ].

Definition vrmBone_fields : list (structField vrmBone) :=
  [ mkField "position" (λ j s,
      let '(v, e) := decodeStruct objPosition_fields j (Position s) in
      (mkBone v (Rotation s), e));
    mkField "rotation" (λ j s,
      let '(v, e) := decodeStruct boneRotation_fields j (Rotation s) in
      (mkBone (Position s) v, e)) ].

Definition cameraType_fields : list (structField cameraType) :=
  [ mkField "position" (λ j s,
      let '(v, e) := decodeStruct objPosition_fields j (cam_Position s) in
      (mkCamera v (cam_Target s), e));
    mkField "target" (λ j s,
      let '(v, e) := decodeStruct objPosition_fields j (cam_Target s) in
      (mkCamera (cam_Position s) v, e)) ].

Definition vrmBones_fields : list (structField vrmBones) :=
  imap (listField (decodeStruct vrmBone_fields)) boneTags.

Definition vrmFaceBlendShapes_fields : list (structField vrmFaceBlendShapes) :=
  imap (listField decodeFloat32) faceTags.

(** [json.Marshal] of the values the handlers build.  A NaN or an infinity
    is an [UnsupportedValueError]; [omitempty] never omits a struct, so
    [spherical] is always written. *)
Definition marshalFloat32 (f : float32) : result json :=
  if isNaN f || isInf f then Err "json: unsupported value" else Ok (JNumber f).

Definition marshalPosition (p : objPosition) : result json :=
  x ← marshalFloat32 (pos_X p);
  y ← marshalFloat32 (pos_Y p);
  z ← marshalFloat32 (pos_Z p);
  Ok (JObject [("x", x); ("y", y); ("z", z)]).

Definition marshalQuaternion (q : objQuaternionRotation) : result json :=
  x ← marshalFloat32 (quat_X q);
  y ← marshalFloat32 (quat_Y q);
  z ← marshalFloat32 (quat_Z q);
  w ← marshalFloat32 (quat_W q);
  Ok (JObject [("x", x); ("y", y); ("z", z); ("w", w)]).

Definition marshalSpherical (r : objSphericalRotation) : result json :=
  a ← marshalFloat32 (AzimuthAngle r);
  p ← marshalFloat32 (PolarAngle r);
  Ok (JObject [("azimuth", a); ("polar", p)]).

Definition marshalRotation (r : boneRotation) : result json :=
  q ← marshalQuaternion (Quaternion r);
  s ← marshalSpherical (Spherical r);
  Ok (JObject [("quaternion", q); ("spherical", s)]).

Definition marshalBone (b : vrmBone) : result json :=
  p ← marshalPosition (Position b);
  r ← marshalRotation (Rotation b);
  Ok (JObject [("position", p); ("rotation", r)]).

Definition marshalCamera (c : cameraType) : result json :=
  p ← marshalPosition (cam_Position c);
  t ← marshalPosition (cam_Target c);
  Ok (JObject [("position", p); ("target", t)]).

(** A map with the single entry [key ↦ v]. *)
Definition marshalSingleton {A : Type} (marshal : A → result json)
    (key : string) (v : A) : result json :=
  j ← marshal v;
  Ok (JObject [(key, j)]).

(** ** The decoder: [parseBone], [parseKey] and the two handlers of
    [listenVMC] *)

Fixpoint parseBone_loop (args : list oscArg) (boneData : list float32)
  : result (list float32) :=
  match args with
  | [] => Ok boneData
  | v :: rest =>
      match v with
      | ArgFloat32 coord => parseBone_loop rest (boneData ++ [coord])
      | _ => Err "Unable to type assert OSC message as []float32 bone coords"
      end
  end.

Definition parseBone (msg : oscMessage) : outcome (result (list float32)) :=
  args ← sliceFrom1 (Arguments msg);
  Returned (parseBone_loop args []).

Definition parseKey (msg : oscMessage) : outcome (result string) :=
  arg0 ← index (Arguments msg) 0;
  match arg0 with
  | ArgString rawKey =>
      Returned (key ← camelToSnake rawKey; Ok key)
  | _ => Returned (Err "Unable to type assert OSC message string key")
  end.

(** The handler of [/VMC/Ext/Blend/Val]. *)
Definition handleBlendVal (msg : oscMessage) (liveVRM : vrmType)
  : outcome vrmType :=
  arg0 ← index (Arguments msg) 0;
  match arg0 with
  | ArgString key =>
      arg1 ← index (Arguments msg) 1;
      match arg1 with
      | ArgFloat32 blendValue =>
          let blendValue :=
            if f32_gt blendValue f32_one then f32_one else blendValue in
          let blendValue :=
            if f32_lt blendValue f32_zero then f32_zero else blendValue in
          match marshalSingleton marshalFloat32 key blendValue with
          | Err _ => Returned liveVRM
          | Ok mapBytes =>
              let '(face, _) :=
                decodeStruct vrmFaceBlendShapes_fields mapBytes
                  (FaceBlendShapes (BlendShapes liveVRM)) in
              Returned
                (mkVRM (Bones liveVRM)
                   (mkBlendShapes
                      (DynamicBlendShapes (BlendShapes liveVRM)) face))
          end
      | _ => Returned liveVRM
      end
  | _ => Returned liveVRM
  end.

(** The handler of [/VMC/Ext/Bone/Pos]. *)
Definition handleBonePos (msg : oscMessage) (liveVRM : vrmType)
  : outcome vrmType :=
  k ← parseKey msg;
  match k with
  | Err _ => Returned liveVRM
  | Ok key =>
      v ← parseBone msg;
      match v with
      | Err _ => Returned liveVRM
      | Ok value =>
          v0 ← index value 0; v1 ← index value 1; v2 ← index value 2;
          v3 ← index value 3; v4 ← index value 4; v5 ← index value 5;
          v6 ← index value 6;
          let newBone :=
            mkBone (mkPosition v0 v1 v2)
              (mkRotation (mkQuaternion v3 v4 v5 v6)
                          (mkSpherical f32_zero f32_zero)) in
          match marshalSingleton marshalBone key newBone with
          | Err _ => Returned liveVRM
          | Ok newBoneBytes =>
              let '(bones, _) :=
                decodeStruct vrmBones_fields newBoneBytes (Bones liveVRM) in
              Returned (mkVRM bones (BlendShapes liveVRM))
          end
      end
  end.

(** A call of one of the two handlers [listenVMC] registers.  The
    dispatcher of go-osc calls them, one message at a time, for the messages
    whose address matches their pattern. *)
Inductive handlerCall : Type :=
| BlendVal (msg : oscMessage)     (* the handler of /VMC/Ext/Blend/Val *)
| BonePos (msg : oscMessage).     (* the handler of /VMC/Ext/Bone/Pos *)

Definition handle (call : handlerCall) (liveVRM : vrmType) : outcome vrmType :=
  match call with
  | BlendVal msg => handleBlendVal msg liveVRM
  | BonePos msg => handleBonePos msg liveVRM
  end.

(** ** [websocketPool] *)

Definition newPool : websocketPool := mkPool ∅ [] [].

(** [p.BroadcastChannel <- msg].  The channel is unbuffered: the send
    completes when the loop of [start] receives [msg]. *)
Definition send (msg : cameraType) (p : websocketPool) : websocketPool :=
  mkPool (Clients p) (BroadcastChannel p ++ [msg]) (heap p).

Definition count (p : websocketPool) : nat := size (Clients p).

(** [make(chan cameraType)] *)
Definition makeChan (h : list chanState) : nat * list chanState :=
  (List.length h, h ++ [mkChan [] false]).

(** [close(c)].  Every reference the pool holds was returned by
    [makeChan]; one outside the heap is treated as [nil]. *)
Definition closeChan (c : option nat) (h : list chanState)
  : outcome (list chanState) :=
  match c with
  | None => Panicked "close of nil channel"
  | Some r =>
      match h !! r with
      | Some st =>
          if closed st then Panicked "close of closed channel"
          else Returned (<[r := mkChan (sent st) true]> h)
      | None => Panicked "close of nil channel"
      end
  end.

(** [c <- msg]; a send on a nil channel never completes. *)
Definition chanSend (c : option nat) (msg : cameraType) (h : list chanState)
  : outcome (list chanState) :=
  match c with
  | None => Blocked
  | Some r =>
      match h !! r with
      | Some st =>
          if closed st then Panicked "send on closed channel"
          else Returned (<[r := mkChan (sent st ++ [msg]) false]> h)
      | None => Blocked
      end
  end.

Definition add (id : string) (p : websocketPool) : websocketPool :=
  let '(c, h) := makeChan (heap p) in
  let newClient := mkClient id (Some c) in
  mkPool (<[id := newClient]> (Clients p)) (BroadcastChannel p) h.

(** [p.Clients[id]]: the zero value for an absent key. *)
Definition clientAt (p : websocketPool) (id : string) : websocketClient :=
  default (mkClient "" None) (Clients p !! id).

Definition remove (id : string) (p : websocketPool) : outcome websocketPool :=
  h ← closeChan (Channel (clientAt p id)) (heap p);
  Returned (mkPool (delete id (Clients p)) (BroadcastChannel p) h).

(** The inner loop of [start]: [client.Channel <- msg] for the clients in
    the order [range p.Clients] yields them. *)
Fixpoint start_range (clients : list websocketClient) (msg : cameraType)
    (h : list chanState) : outcome (list chanState) :=
  match clients with
  | [] => Returned h
  | client :: rest =>
      h' ← chanSend (Channel client) msg h;
      start_range rest msg h'
  end.

(** One turn of the loop of [start]: [msg := <-p.BroadcastChannel], which
    blocks while nothing was sent, then the range over the clients.  Go
    leaves the order of a [range] over a map open; [order] is the order of
    this turn. *)
Definition start_turn (order : list (string * websocketClient))
    (p : websocketPool) : outcome websocketPool :=
  match BroadcastChannel p with
  | [] => Blocked
  | msg :: pending =>
      h ← start_range (order.*2) msg (heap p);
      Returned (mkPool (Clients p) pending h)
  end.

(** An update: [send(msg)] and the turn of [start] that receives it. *)
Definition update (order : list (string * websocketClient))
    (msg : cameraType) (p : websocketPool) : outcome websocketPool :=
  start_turn order (send msg p).

(** The values delivered so far on channel [c]. *)
Definition delivered (p : websocketPool) (c : nat) : list cameraType :=
  default [] (sent <$> heap p !! c).

(** The number of deliveries made so far, over all channels. *)
Fixpoint deliveries (h : list chanState) : nat :=
  match h with
  | [] => 0
  | st :: rest => List.length (sent st) + deliveries rest
  end.

(** ** The camera routes of the router *)

(** [ws.ReadJSON(&sceneConfig.Camera)]: the frame is decoded into the
    camera as it stands. *)
Definition ReadJSON (r : wsRead) (c : cameraType) : cameraType * bool :=
  match r with
  | ReadFrame j => decodeStruct cameraType_fields j c
  | ReadFailed => (c, true)
  end.

(** The loop of [/live/write/camera] over the reads of one connection. *)
Fixpoint writeCamera (reads : list wsRead) (sceneConfig : Scene)
  : Scene * list routerEvent :=
  match reads with
  | [] => (sceneConfig, [])
  | r :: rest =>
      let '(camera, err) := ReadJSON r (Camera sceneConfig) in
      let sceneConfig := mkScene camera in
      if err then (sceneConfig, [])
      else
        let '(sceneConfig', events) := writeCamera rest sceneConfig in
        (sceneConfig', PoolUpdate camera :: events)
  end.

(** The callback [/live/read/camera] hands to [cameraPool.Create].
    [relayedData] is [None] when its dynamic type is not [obj.Camera]: the
    comma-ok assertion then stores the zero camera.  [writeFails] is the
    result of [ws.WriteJSON]. *)
Definition readCamera_callback (relayedData : option cameraType)
    (writeFails : bool) (sceneConfig : Scene) : Scene * list routerEvent :=
  match relayedData with
  | None => (mkScene (mkCamera zeroPosition zeroPosition), [])
  | Some camera =>
      (mkScene camera,
       if writeFails then [WriteJSON camera; ClientDelete; Close]
       else [WriteJSON camera])
  end.

(** ** The receiver routes of the router *)

(** [receiverMap[name]]: [nil] for an absent key. *)
Definition receiverAt (receiverMap : gmap string receiverPtr) (name : string)
  : receiverPtr :=
  default None (receiverMap !! name).

(** The state [New] sets up. *)
Definition New_router (receiverMap : gmap string receiverPtr)
    (configured : string) : routerState :=
  mkRouter configured (receiverAt receiverMap configured).

(** The handler of [/api/receiver/update]; [body] is the result of
    [io.ReadAll(r.Body)]. *)
Definition receiverUpdate (receiverMap : gmap string receiverPtr)
    (body : result string) (st : routerState)
  : routerState * list receiverEvent :=
  match body with
  | Err _ => (st, [])
  | Ok suggestedReceiver =>
      match receiverAt receiverMap suggestedReceiver with
      | None => (st, [])
      | Some _ =>
          let stopped := CallStop (activeReceiver st) in
          let st' :=
            mkRouter suggestedReceiver
              (receiverAt receiverMap suggestedReceiver) in
          (st', [stopped; CallStart (activeReceiver st')])
      end
  end.

(** The [Active] field [/api/receiver] reports. *)
Definition activeName (st : routerState) : string := Receiver st.


(** ** The normalisation algorithm in the words of the specification

    "Insert a separator before each uppercase letter that follows a
    lowercase letter, lowercase the whole string, then rewrite a trailing
    [_l] to [_left] and a trailing [_r] to [_right]."  These definitions
    follow that sentence, not the source; [normalizeVMCKey] is compared with
    them below. *)

(** [prev] is the byte before [s], if any. *)
Fixpoint spec_separate (prev : option ascii) (s : string) : string :=
  match s with
  | EmptyString => EmptyString
  | String c r =>
      let rest := String c (spec_separate (Some c) r) in
      if isUpper c && from_option isLower false prev
      then String "_" rest
      else rest
  end.

(** [s] without its ending [suffix], when it ends so. *)
Fixpoint stripSuffix (suffix s : string) : option string :=
  if String.eqb s suffix then Some EmptyString
  else
    match s with
    | EmptyString => None
    | String c r => String c <$> stripSuffix suffix r
    end.

Definition spec_expandEnding (s : string) : string :=
  match stripSuffix "_l" s with
  | Some p => p +:+ "_left"
  | None =>
      match stripSuffix "_r" s with
      | Some p => p +:+ "_right"
      | None => s
      end
  end.

Definition spec_normalizeKey (s : string) : string :=
  spec_expandEnding (strings_ToLower (spec_separate None s)).

(** No byte of [s] is an upper-case letter. *)
Fixpoint noUpper (s : string) : bool :=
  match s with
  | EmptyString => true
  | String c r => negb (isUpper c) && noUpper r
  end.

(** The key vocabularies: the bone names as VMC sends them (the Go field
    names of [vrmBones]), their snake_case forms (its JSON tags) and the
    face blend-shape names. *)
Definition keyVocabulary : list string :=
  boneFieldNames ++ boneTags ++ faceTags.

(** [f] applied twice gives what it gives once. *)
Definition idempotentAt (f : string → result string) (k : string) : bool :=
  match f k with
  | Ok k1 =>
      match f k1 with
      | Ok k2 => String.eqb k2 k1
      | Err _ => false
      end
  | Err _ => false
  end.


(** ** Reading the model *)

(** The position of the first tag [f] accepts. *)
Fixpoint findIndex (f : string → bool) (tags : list string) : option nat :=
  match tags with
  | [] => None
  | t :: rest => if f t then Some 0 else S <$> findIndex f rest
  end.

(** The position of the field of a struct with the JSON tags [tags] that
    the object key [key] selects: [findField], by position. *)
Definition fieldIndex (tags : list string) (key : string) : option nat :=
  match findIndex (λ t, String.eqb t key) tags with
  | Some i => Some i
  | None => findIndex (λ t, equalFold t key) tags
  end.

(** A [vrmType] has its 56 bones and its 52 face blend shapes. *)
Definition wf_vrm (v : vrmType) : Prop :=
  List.length (Bones v) = List.length boneTags ∧
  List.length (FaceBlendShapes (BlendShapes v)) = List.length faceTags.

(** "The input clamped to [0,1]", in the words of the specification. *)
Definition spec_clamp (v : float32) : float32 :=
  if f32_lt v f32_zero then f32_zero
  else if f32_gt v f32_one then f32_one
  else v.

(** [x] lies in [0,1]. *)
Definition inUnit (x : float32) : bool :=
  f32_le f32_zero x && f32_le x f32_one.

(** The [float32] nearest to 1.5, to -0.3 and to 0.42
    (0x3FC00000, 0xBE99999A, 0x3ED70A3D). *)
Definition f32_1_5 : float32 := S754_finite false 12582912 (-23).
Definition f32_neg_0_3 : float32 := S754_finite true 10066330 (-25).
Definition f32_0_42 : float32 := S754_finite false 14092861 (-25).

(** [liveVRM] with one part replaced. *)
Definition withFace (v : vrmType) (face : vrmFaceBlendShapes) : vrmType :=
  mkVRM (Bones v) (mkBlendShapes (DynamicBlendShapes (BlendShapes v)) face).

Definition withBones (v : vrmType) (bones : vrmBones) : vrmType :=
  mkVRM bones (BlendShapes v).

(** What [camelToSnake] returns. *)
Definition snakeCase (s : string) : string :=
  strings_ToLower (replaceAlnumUpper (replaceFirstCap false s)).

(** The bone a well-formed [/VMC/Ext/Bone/Pos] message carries. *)
Definition boneOf (v0 v1 v2 v3 v4 v5 v6 : float32) : vrmBone :=
  mkBone (mkPosition v0 v1 v2)
    (mkRotation (mkQuaternion v3 v4 v5 v6) (mkSpherical f32_zero f32_zero)).

(** Neither a NaN nor an infinity. *)
Definition isFinite (f : float32) : bool := negb (isNaN f || isInf f).

(** The field of [vrmBones] a bone message names, and the field of
    [vrmFaceBlendShapes] a blend message names, by position. *)
Definition mentionedBone (msg : oscMessage) : option nat :=
  match Arguments msg with
  | ArgString rawKey :: _ => fieldIndex boneTags (snakeCase rawKey)
  | _ => None
  end.

Definition mentionedShape (msg : oscMessage) : option nat :=
  match Arguments msg with
  | ArgString key :: _ => fieldIndex faceTags key
  | _ => None
  end.

(** The handler calls of a session, in the order they are made. *)
Fixpoint run (calls : list handlerCall) (liveVRM : vrmType)
  : outcome vrmType :=
  match calls with
  | [] => Returned liveVRM
  | call :: rest => liveVRM' ← handle call liveVRM; run rest liveVRM'
  end.

(** ** The pool, read *)

(** Every registered client holds an open channel of its own, and [start]
    has received everything that was sent. *)
Definition poolWF (p : websocketPool) : Prop :=
  BroadcastChannel p = [] ∧
  (∀ id cl, Clients p !! id = Some cl →
     ∃ c st, Channel cl = Some c ∧ heap p !! c = Some st ∧ closed st = false) ∧
  (∀ id1 id2 cl1 cl2,
     Clients p !! id1 = Some cl1 → Clients p !! id2 = Some cl2 →
     Channel cl1 = Channel cl2 → id1 = id2).

(** How many of [clients] hold channel [c]. *)
Definition sendsTo (clients : list websocketClient) (c : nat) : nat :=
  List.length (filter (λ cl, Channel cl = Some c) clients).

(** ** Concrete inputs *)

(** Stand-ins for the Unicode tables, for inputs that are ASCII. *)
Definition no_unicode_ToLower (s : string) : string := s.
Definition no_unicode_EqualFold (name key : string) : bool := false.

(** A camera, and an update of it that carries a position only. *)
Definition camera_before : cameraType :=
  mkCamera (mkPosition f32_one f32_one f32_one)
           (mkPosition f32_1_5 f32_1_5 f32_1_5).

Definition position_only : json :=
  JObject [("position",
            JObject [("x", JNumber f32_0_42); ("y", JNumber f32_0_42);
                     ("z", JNumber f32_0_42)])].

Definition camera_after : cameraType :=
  mkCamera (mkPosition f32_0_42 f32_0_42 f32_0_42)
           (mkPosition f32_1_5 f32_1_5 f32_1_5).

(** A pool with two clients. *)
Definition two_clients : websocketPool := add "B" (add "A" newPool).

(** ** The handlers, read as deltas *)

Definition isArgString (a : oscArg) : bool :=
  match a with ArgString _ => true | _ => false end.

Definition isArgFloat32 (a : oscArg) : bool :=
  match a with ArgFloat32 _ => true | _ => false end.

(** The [float32] arguments among [args], in order. *)
Definition coordsOf (args : list oscArg) : list float32 :=
  omap (λ a, match a with ArgFloat32 f => Some f | _ => None end) args.

(** What a handler call can do to [liveVRM]: panic, nothing, or store one
    face value or one bone. *)
Inductive delta : Type :=
| DeltaPanic
| DeltaNone
| DeltaShape (i : nat) (x : float32)
| DeltaBone (i : nat) (b : vrmBone).

Definition applyDelta (d : delta) (liveVRM : vrmType) : outcome vrmType :=
  match d with
  | DeltaPanic => Panicked "index out of range"
  | DeltaNone => Returned liveVRM
  | DeltaShape i x =>
      Returned (withFace liveVRM
                  (<[i := x]> (FaceBlendShapes (BlendShapes liveVRM))))
  | DeltaBone i b => Returned (withBones liveVRM (<[i := b]> (Bones liveVRM)))
  end.

(** The field a handler call names: a face blend shape (left) or a bone
    (right), by position. *)
Definition touches (call : handlerCall) : option (nat + nat) :=
  match call with
  | BlendVal msg => inl <$> mentionedShape msg
  | BonePos msg => inr <$> mentionedBone msg
  end.

(** A bone as the bone handler stores it: seven finite coordinates and a
    zero spherical rotation. *)
Definition boneOK (b : vrmBone) : Prop :=
  Forall (λ f, isFinite f = true)
    [pos_X (Position b); pos_Y (Position b); pos_Z (Position b);
     quat_X (Quaternion (Rotation b)); quat_Y (Quaternion (Rotation b));
     quat_Z (Quaternion (Rotation b)); quat_W (Quaternion (Rotation b))] ∧
  Spherical (Rotation b) = mkSpherical f32_zero f32_zero.

(** [d] is a delta the call [call] can have. *)
Definition deltaFor (call : handlerCall) (d : delta) : Prop :=
  match d with
  | DeltaShape i x =>
      touches call = Some (inl i) ∧ i < List.length faceTags ∧
      inUnit x = true
  | DeltaBone i b =>
      touches call = Some (inr i) ∧ i < List.length boneTags ∧ boneOK b
  | _ => True
  end.

(** What holds of [liveVRM] whatever was received. *)
Definition poseOK (v : vrmType) : Prop :=
  wf_vrm v ∧
  Forall boneOK (Bones v) ∧
  Forall (λ x, inUnit x = true) (FaceBlendShapes (BlendShapes v)) ∧
  DynamicBlendShapes (BlendShapes v) = ∅.

(** ** [listen] *)

(** [var camera cameraType]: the camera a frame is decoded into. *)
Definition zeroCamera : cameraType := mkCamera zeroPosition zeroPosition.

(** The loop of [listen] over the reads of one connection.  Every frame is
    decoded into a fresh camera.  A [p.send(camera)] completes with the
    turn of [start] that receives it, and each read comes with the order of
    the range on that turn.  The boolean tells whether [listen] has
    returned (a read failed: the client is removed and the connection
    closed) or waits for the next frame. *)
Fixpoint listen_loop (id : string)
    (reads : list (wsRead * list (string * websocketClient)))
    (p : websocketPool) : outcome (websocketPool * bool) :=
  match reads with
  | [] => Returned (p, false)
  | (r, order) :: rest =>
      let '(camera, err) := ReadJSON r zeroCamera in
      if err then
        p' ← remove id p;
        Returned (p', true)
      else
        p' ← update order camera p;
        listen_loop id rest p'
  end.

Definition listen (id : string)
    (reads : list (wsRead * list (string * websocketClient)))
    (p : websocketPool) : outcome (websocketPool * bool) :=
  listen_loop id reads (add id p).

(** The camera [listen] sends for a frame. *)
Definition sentFor (frame : json) : cameraType :=
  (ReadJSON (ReadFrame frame) zeroCamera).1.

(** ** The routes over several requests *)

(** The canonical camera after each of the updates [us], in turn. *)
Fixpoint mergeAll (us : list cameraUpdate) (c : cameraType)
  : list cameraType :=
  match us with
  | [] => []
  | u :: rest => mergeCamera u c :: mergeAll rest (mergeCamera u c)
  end.

(** A JSON value that is neither an object nor [null]: decoding it into a
    struct is an [UnmarshalTypeError]. *)
Definition notAStruct (j : json) : bool :=
  match j with
  | JObject _ | JNull => false
  | _ => true
  end.

(** The handler of [/api/receiver/update] over the bodies of several
    requests, one after the other. *)
Fixpoint receiverRun (receiverMap : gmap string receiverPtr)
    (bodies : list (result string)) (st : routerState)
  : routerState * list receiverEvent :=
  match bodies with
  | [] => (st, [])
  | body :: rest =>
      let '(st1, calls1) := receiverUpdate receiverMap body st in
      let '(st2, calls2) := receiverRun receiverMap rest st1 in
      (st2, calls1 ++ calls2)
  end.

(** The receiver left running by [calls] when [current] runs before them,
    provided the calls hand over: each [Stop] goes to the running receiver
    and is followed by one [Start]. *)
Fixpoint handover (current : receiverPtr) (calls : list receiverEvent)
  : option receiverPtr :=
  match calls with
  | [] => Some current
  | CallStop r :: CallStart r' :: rest =>
      if decide (r = current) then handover r' rest else None
  | _ => None
  end.

Definition onNil (e : receiverEvent) : bool :=
  match e with
  | CallStop None | CallStart None => true
  | _ => false
  end.

(** The [Available] field [/api/receiver] reports: the names the range
    over [receiverMap] yields, in the order [order] of that range. *)
Definition receiverNames (order : list (string * receiverPtr)) : list string :=
  order.*1.

(** ** Keys, read *)

(** [s] without its underscores. *)
Fixpoint withoutSeparators (s : string) : string :=
  match s with
  | EmptyString => EmptyString
  | String c r =>
      if Ascii.eqb c "_" then withoutSeparators r
      else String c (withoutSeparators r)
  end.

(** ** [randomString] *)




(** Every byte of [s] satisfies [f]. *)
Fixpoint allBytes (f : ascii → bool) (s : string) : bool :=
  match s with
  | EmptyString => true
  | String c r => f c && allBytes f r
  end.

(** ** The environment keys of [initializeConfig] *)

(** The Unicode tables of [strings.ToUpper], reached on a string that is
    not ASCII only. *)
Variable unicode_ToUpper : string → string.

(** [c -= 'a' - 'A'] for a lower-case byte. *)
Definition upperByte (c : ascii) : ascii :=
  if isLower c then ascii_of_N (N_of_ascii c - 32) else c.

Definition strings_ToUpper (s : string) : string :=
  if isASCII s then mapBytes upperByte s else unicode_ToUpper s.

(** [strings.ReplaceAll(s, "-", "_")] *)
Definition dashToUnderscore (c : ascii) : ascii :=
  if Ascii.eqb c "-" then "_"%char else c.

Definition ReplaceAll_dash (s : string) : string :=
  mapBytes dashToUnderscore s.

Definition appName : string := "fntwo".
Definition envPrefix : string := strings_ToUpper appName.

(** The key [initializeConfig] binds to the flag [name]. *)
Definition envKey (name : string) : string :=
  envPrefix +:+ "_" +:+ strings_ToUpper (ReplaceAll_dash name).

(** The flags [newRootCommand] defines, but [config], which the visitor of
    [initializeConfig] skips. *)
Definition boundFlags : list string :=
  ["vmc-ip"; "vmc-port"; "web-ip"; "web-port"; "update-frequency";
   "scene-cfg"; "vrm-file"].

(** Neither a lower-case letter nor a dash. *)
Definition envByte (c : ascii) : bool :=
  negb (isLower c) && negb (Ascii.eqb c "-").

Definition no_unicode_ToUpper (s : string) : string := s.

(** * Theorems *)

(** ** Bytes *)

Ltac by_cases_on_byte c :=
  destruct c as [[] [] [] [] [] [] [] []]; vm_compute; congruence.

Lemma isUpper_not_isLower (c : ascii) : isUpper c = true → isLower c = false.
Proof. by_cases_on_byte c. Qed.

Lemma isUpper_isASCIIByte (c : ascii) : isUpper c = true → isASCIIByte c = true.
Proof. by_cases_on_byte c. Qed.

Lemma lowerByte_not_isUpper (c : ascii) : isUpper (lowerByte c) = false.
Proof. by_cases_on_byte c. Qed.

Lemma lowerByte_isASCIIByte (c : ascii) :
  isASCIIByte (lowerByte c) = isASCIIByte c.
Proof. by_cases_on_byte c. Qed.

Lemma lowerByte_fixed (c : ascii) : isUpper c = false → lowerByte c = c.
Proof. unfold lowerByte. by intros ->. Qed.

(** ** Strings *)

Lemma append_cons (c : ascii) (s t : string) :
  String c s +:+ t = String c (s +:+ t).
Proof. reflexivity. Qed.

Lemma append_empty_l (t : string) : "" +:+ t = t.
Proof. reflexivity. Qed.

Lemma append_empty_r (s : string) : s +:+ "" = s.
Proof. induction s as [|c s IH]; [done | by rewrite append_cons, IH]. Qed.

Lemma append_assoc (a b c : string) : (a +:+ b) +:+ c = a +:+ (b +:+ c).
Proof. induction a as [|x a IH]; [done | by rewrite !append_cons, IH]. Qed.

Lemma length_append (a b : string) :
  String.length (a +:+ b) = String.length a + String.length b.
Proof.
  induction a as [|x a IH]; [done |].
  rewrite append_cons. cbn [String.length]. by rewrite IH.
Qed.

Lemma isASCII_append (a b : string) :
  isASCII (a +:+ b) = isASCII a && isASCII b.
Proof.
  induction a as [|x a IH]; [done |].
  rewrite append_cons. cbn [isASCII]. by rewrite IH, andb_assoc.
Qed.


(** A string is not equal to a strictly shorter or longer one. *)
Lemma eqb_length_ne (s t : string) :
  String.length s ≠ String.length t → String.eqb s t = false.
Proof.
  intros Hlen. apply String.eqb_neq. intros ->. by apply Hlen.
Qed.

(** ** The scanner of [([a-z])([A-Z])] against the words of the spec *)

Lemma replaceLowerUpper_separate (s : string) :
  (∀ prev, from_option isLower false prev = false →
     replaceLowerUpper s = spec_separate prev s) ∧
  (∀ a, replaceLowerUpper (String a s) = String a (spec_separate (Some a) s)).
Proof.
  induction s as [|b t [IH1 IH2]].
  - split; [done |]. intros a. reflexivity.
  - split.
    + intros prev Hprev. rewrite IH2. cbn [spec_separate].
      by rewrite Hprev, andb_false_r.
    + intros a. cbn [spec_separate from_option].
      change (replaceLowerUpper (String a (String b t))) with
        (if isLower a && isUpper b
         then String a (String "_" (String b (replaceLowerUpper t)))
         else String a (replaceLowerUpper (String b t))).
      rewrite (andb_comm (isUpper b)).
      destruct (isLower a && isUpper b) eqn:Hm.
      * apply andb_true_iff in Hm as [_ Hb].
        rewrite (IH1 (Some b)); [done |].
        by apply isUpper_not_isLower.
      * by rewrite IH2.
Qed.

Lemma replaceLowerUpper_spec (s : string) :
  replaceLowerUpper s = spec_separate None s.
Proof. by apply replaceLowerUpper_separate. Qed.

(** ** The anchored replacements *)

Lemma replaceEnding_stripSuffix (suffix repl s : string) :
  replaceEnding suffix repl s =
    match stripSuffix suffix s with
    | Some p => p +:+ repl
    | None => s
    end.
Proof.
  induction s as [|c r IH].
  - cbn. by destruct suffix.
  - cbn [replaceEnding stripSuffix].
    destruct (String.eqb (String c r) suffix); [done |].
    rewrite IH. by destruct (stripSuffix suffix r).
Qed.


Lemma stripSuffix_Some (suffix s p : string) :
  stripSuffix suffix s = Some p → s = p +:+ suffix.
Proof.
  revert p. induction s as [|c r IH]; intros p; cbn [stripSuffix].
  - destruct (String.eqb_spec "" suffix) as [<-|]; [|done].
    by intros [= <-].
  - destruct (String.eqb_spec (String c r) suffix) as [<-|].
    + by intros [= <-].
    + destruct (stripSuffix suffix r) as [q|] eqn:Hq; [|done].
      intros [= <-]. by rewrite append_cons, (IH q).
Qed.

(** Two different suffixes of the same length exclude each other. *)
Lemma stripSuffix_other (suffix other p : string) :
  String.length suffix = String.length other → suffix ≠ other →
  stripSuffix other (p +:+ suffix) = None.
Proof.
  intros Hlen Hne. induction p as [|c p IH].
  - rewrite append_empty_l.
    destruct (stripSuffix other suffix) as [q|] eqn:Hq; [|done].
    apply stripSuffix_Some in Hq.
    assert (String.length q = 0) as Hq0.
    { apply (f_equal String.length) in Hq. rewrite length_append in Hq. lia. }
    destruct q; [|done]. by destruct Hne.
  - rewrite append_cons. cbn [stripSuffix]. rewrite eqb_length_ne.
    + by rewrite IH.
    + cbn [String.length]. rewrite length_append. lia.
Qed.

Lemma stripSuffix_left_not_r (p : string) :
  stripSuffix "_r" (p +:+ "_left") = None.
Proof.
  change "_left" with ("_le" +:+ "ft"). rewrite <- append_assoc.
  by apply stripSuffix_other.
Qed.

Lemma expandEnding_spec (x : string) :
  replaceEnding "_r" "_right" (replaceEnding "_l" "_left" x)
  = spec_expandEnding x.
Proof.
  unfold spec_expandEnding. rewrite !replaceEnding_stripSuffix.
  destruct (stripSuffix "_l" x) as [p|]; [|done].
  by rewrite stripSuffix_left_not_r.
Qed.

(** ** Key normalisation *)

Lemma normalizeVMCKey_refines (key : string) :
  normalizeVMCKey key = Ok (spec_normalizeKey key).
Proof.
  unfold normalizeVMCKey, spec_normalizeKey, regexp_Compile.
  cbn [mbind result_bind ReplaceAllString].
  by rewrite expandEnding_spec, replaceLowerUpper_spec.
Qed.


Lemma isASCII_separate (s : string) (prev : option ascii) :
  isASCII (spec_separate prev s) = isASCII s.
Proof.
  revert prev. induction s as [|c s IH]; intros prev; [done |].
  cbn [spec_separate].
  destruct (isUpper c && from_option isLower false prev);
    cbn [isASCII]; by rewrite IH.
Qed.





(** *** Idempotence on every ASCII key *)

Lemma noUpper_append (a b : string) :
  noUpper (a +:+ b) = noUpper a && noUpper b.
Proof.
  induction a as [|x a IH]; [done |].
  rewrite append_cons. cbn [noUpper]. by rewrite IH, andb_assoc.
Qed.

Lemma noUpper_lower (s : string) : noUpper (mapBytes lowerByte s) = true.
Proof.
  induction s as [|c s IH]; [done |].
  cbn [mapBytes noUpper]. by rewrite lowerByte_not_isUpper, IH.
Qed.

Lemma isASCII_lower (s : string) :
  isASCII (mapBytes lowerByte s) = isASCII s.
Proof.
  induction s as [|c s IH]; [done |].
  cbn [mapBytes isASCII]. by rewrite lowerByte_isASCIIByte, IH.
Qed.

Lemma noUpper_separate (s : string) (prev : option ascii) :
  noUpper s = true → spec_separate prev s = s.
Proof.
  revert prev. induction s as [|c s IH]; intros prev; [done |].
  cbn [noUpper spec_separate]. intros [Hc Hs]%andb_true_iff.
  apply negb_true_iff in Hc. rewrite Hc. cbn [andb]. by rewrite IH.
Qed.

Lemma noUpper_lower_fixed (s : string) :
  noUpper s = true → mapBytes lowerByte s = s.
Proof.
  induction s as [|c s IH]; [done |].
  cbn [noUpper mapBytes]. intros [Hc Hs]%andb_true_iff.
  apply negb_true_iff in Hc. by rewrite lowerByte_fixed, IH.
Qed.

(** A lower-case ASCII key that ends neither in [_l] nor in [_r] is its own
    normal form. *)
Lemma spec_normalizeKey_fixed (y : string) :
  isASCII y = true → noUpper y = true →
  stripSuffix "_l" y = None → stripSuffix "_r" y = None →
  spec_normalizeKey y = y.
Proof.
  intros Hascii Hlow Hl Hr. unfold spec_normalizeKey, strings_ToLower.
  rewrite noUpper_separate, Hascii, noUpper_lower_fixed by done.
  unfold spec_expandEnding. by rewrite Hl, Hr.
Qed.

(** [normalizeVMCKey] is idempotent on every ASCII key. *)
Lemma normalizeVMCKey_idempotent (k : string) :
  isASCII k = true →
  ∃ k1, normalizeVMCKey k = Ok k1 ∧ normalizeVMCKey k1 = Ok k1.
Proof.
  intros Hk. exists (spec_normalizeKey k).
  split; [apply normalizeVMCKey_refines |].
  rewrite normalizeVMCKey_refines. f_equal.
  unfold spec_normalizeKey at 2 3. unfold strings_ToLower.
  rewrite isASCII_separate, Hk.
  set (x := mapBytes lowerByte (spec_separate None k)).
  assert (isASCII x = true) as Hx by
    (unfold x; by rewrite isASCII_lower, isASCII_separate).
  assert (noUpper x = true) as Hlow by apply noUpper_lower.
  unfold spec_expandEnding.
  destruct (stripSuffix "_l" x) as [p|] eqn:Hl;
    [| destruct (stripSuffix "_r" x) as [p|] eqn:Hr].
  - apply stripSuffix_Some in Hl. rewrite Hl in Hx, Hlow.
    rewrite isASCII_append in Hx. rewrite noUpper_append in Hlow.
    apply andb_true_iff in Hx as [Hx _], Hlow as [Hlow _].
    apply spec_normalizeKey_fixed.
    + by rewrite isASCII_append, Hx.
    + by rewrite noUpper_append, Hlow.
    + change "_left" with ("_le" +:+ "ft"). rewrite <- append_assoc.
      by apply stripSuffix_other.
    + apply stripSuffix_left_not_r.
  - apply stripSuffix_Some in Hr. rewrite Hr in Hx, Hlow.
    rewrite isASCII_append in Hx. rewrite noUpper_append in Hlow.
    apply andb_true_iff in Hx as [Hx _], Hlow as [Hlow _].
    apply spec_normalizeKey_fixed.
    + by rewrite isASCII_append, Hx.
    + by rewrite noUpper_append, Hlow.
    + change "_right" with ("_rig" +:+ "ht"). rewrite <- append_assoc.
      by apply stripSuffix_other.
    + change "_right" with ("_rig" +:+ "ht"). rewrite <- append_assoc.
      by apply stripSuffix_other.
  - by apply spec_normalizeKey_fixed.
Qed.

Lemma idempotentAt_true (f : string → result string) (k : string) :
  idempotentAt f k = true → ∃ k1, f k = Ok k1 ∧ f k1 = Ok k1.
Proof.
  unfold idempotentAt. destruct (f k) as [k1|]; [|done].
  destruct (f k1) as [k2|] eqn:H2; [|done].
  intros ->%String.eqb_eq. eauto.
Qed.

(** C9. Key normalisation is a total function, and on every key of the
    bone and blend-shape vocabularies it is idempotent: normalising the
    normalised key returns it unchanged.  This holds for [normalizeVMCKey]
    and for the [camelToSnake] that [parseKey] calls. *)
Theorem normalization_idempotent_on_vocabulary (k : string) :
  In k keyVocabulary →
  (∃ k1, normalizeVMCKey k = Ok k1 ∧ normalizeVMCKey k1 = Ok k1) ∧
  (∃ k1, camelToSnake k = Ok k1 ∧ camelToSnake k1 = Ok k1).
Proof.
  intros Hk. split; apply idempotentAt_true.
  - assert (forallb (idempotentAt normalizeVMCKey) keyVocabulary = true) as H
      by (vm_compute; reflexivity).
    by apply (proj1 (forallb_forall _ _) H).
  - assert (forallb (idempotentAt camelToSnake) keyVocabulary = true) as H
      by (vm_compute; reflexivity).
    by apply (proj1 (forallb_forall _ _) H).
Qed.

(** ** float32 comparisons *)

Lemma float32_constants :
  Forall (λ f, is_float32 f = true)
    [f32_zero; f32_one; f32_1_5; f32_neg_0_3; f32_0_42].
Proof. repeat constructor. Qed.

Lemma SFcompare_antisym (a b : float32) :
  SFcompare b a = CompOpp <$> SFcompare a b.
Proof.
  destruct a as [sa|sa| |sa ma ea], b as [sb|sb| |sb mb eb]; cbn;
    try done; try (by destruct sa); try (by destruct sb);
    try (by destruct sa, sb).
  destruct sa, sb; cbn; try done; f_equal.
  - rewrite (Z.compare_antisym ea eb).
    destruct (ea ?= eb)%Z; cbn; try done.
    pose proof (Pos.compare_cont_antisym ma mb Eq) as H. cbn in H.
    by rewrite H.
  - rewrite (Z.compare_antisym ea eb).
    destruct (ea ?= eb)%Z; cbn; try done.
    pose proof (Pos.compare_cont_antisym ma mb Eq) as H. cbn in H.
    by rewrite H.
Qed.

Lemma SFcompare_not_nan (a b : float32) :
  isNaN a = false → isNaN b = false → ∃ c, SFcompare a b = Some c.
Proof.
  destruct a, b; cbn; try done; eauto.
Qed.

(** Among numbers, "not above" is "at most". *)
Lemma f32_not_gt_le (a b : float32) :
  isNaN a = false → isNaN b = false → f32_gt a b = false → f32_le a b = true.
Proof.
  intros Ha Hb. unfold f32_gt, f32_le, SFltb, SFleb.
  rewrite (SFcompare_antisym a b).
  destruct (SFcompare_not_nan a b Ha Hb) as [c ->]. by destruct c.
Qed.

Lemma f32_not_lt_le (a b : float32) :
  isNaN a = false → isNaN b = false → f32_lt a b = false → f32_le b a = true.
Proof. intros Ha Hb. by apply (f32_not_gt_le b a). Qed.

Lemma f32_lt_not_le (a b : float32) : f32_lt a b = true → f32_le b a = false.
Proof.
  unfold f32_lt, f32_le, SFltb, SFleb. rewrite (SFcompare_antisym a b).
  by destruct (SFcompare a b) as [[]|].
Qed.

(** The two [if]s of the handler are the clamp of the specification. *)
Lemma handler_clamp (v : float32) :
  (if f32_lt (if f32_gt v f32_one then f32_one else v) f32_zero
   then f32_zero
   else if f32_gt v f32_one then f32_one else v)
  = spec_clamp v.
Proof.
  unfold spec_clamp.
  destruct (f32_gt v f32_one) eqn:Hgt.
  - replace (f32_lt v f32_zero) with false; [done |].
    symmetry. by destruct v as [s|s| |s m e]; try destruct s.
  - done.
Qed.

Lemma spec_clamp_above (v : float32) :
  f32_gt v f32_one = true → spec_clamp v = f32_one.
Proof.
  intros Hgt. rewrite <- handler_clamp. by rewrite Hgt.
Qed.

Lemma spec_clamp_below (v : float32) :
  f32_lt v f32_zero = true → spec_clamp v = f32_zero.
Proof. unfold spec_clamp. by intros ->. Qed.

Lemma spec_clamp_within (v : float32) :
  inUnit v = true → spec_clamp v = v.
Proof.
  unfold inUnit, spec_clamp. intros [H0 H1]%andb_true_iff.
  destruct (f32_lt v f32_zero) eqn:Hlt.
  - apply f32_lt_not_le in Hlt. congruence.
  - destruct (f32_gt v f32_one) eqn:Hgt; [|done].
    apply (f32_lt_not_le f32_one v) in Hgt. congruence.
Qed.

Lemma spec_clamp_inUnit (v : float32) :
  isNaN v = false → inUnit (spec_clamp v) = true.
Proof.
  intros Hv. unfold spec_clamp.
  destruct (f32_lt v f32_zero) eqn:Hlt; [done |].
  destruct (f32_gt v f32_one) eqn:Hgt; [done |].
  unfold inUnit. rewrite f32_not_lt_le, f32_not_gt_le; done.
Qed.

Lemma spec_clamp_nan (v : float32) : isNaN v = true → spec_clamp v = v.
Proof. by destruct v. Qed.

Lemma inUnit_finite (x : float32) :
  inUnit x = true → isNaN x = false ∧ isInf x = false.
Proof. by destruct x as [s|[]| |s m e]. Qed.

(** ** Field selection in a struct kept as a list *)

Lemma findIndex_Some (f : string → bool) (tags : list string) (i : nat) :
  findIndex f tags = Some i → ∃ t, tags !! i = Some t ∧ f t = true.
Proof.
  revert i. induction tags as [|t rest IH]; intros i; cbn; [done |].
  destruct (f t) eqn:Hf.
  - intros [= <-]. eauto.
  - destruct (findIndex f rest) as [k|]; [|done].
    intros [= <-]. by apply IH.
Qed.

Lemma fieldIndex_Some (tags : list string) (key : string) (i : nat) :
  fieldIndex tags key = Some i → ∃ t, tags !! i = Some t.
Proof.
  unfold fieldIndex.
  destruct (findIndex (λ t, String.eqb t key) tags) as [k|] eqn:Hk.
  - intros [= <-]. apply findIndex_Some in Hk as (t & ? & _). eauto.
  - intros (t & ? & _)%findIndex_Some. eauto.
Qed.

Lemma fieldIndex_lt (tags : list string) (key : string) (i : nat) :
  fieldIndex tags key = Some i → i < List.length tags.
Proof. intros [t Ht]%fieldIndex_Some. by apply lookup_lt_Some in Ht. Qed.

Lemma find_imap {S : Type} (g : nat → string → structField S)
    (f : string → bool) (tags : list string) :
  (∀ i t, fieldName (g i t) = t) →
  find (λ fld, f (fieldName fld)) (imap g tags)
  = match findIndex f tags with
    | Some i => g i <$> tags !! i
    | None => None
    end.
Proof.
  revert g. induction tags as [|t rest IH]; intros g Hg; [done |].
  cbn [imap find findIndex]. rewrite Hg.
  destruct (f t); [done |].
  rewrite IH by (intros; apply Hg).
  by destruct (findIndex f rest).
Qed.

Lemma findField_listField {A : Type} (dec : json → A → A * bool)
    (tags : list string) (key : string) :
  findField (imap (listField dec) tags) key
  = match fieldIndex tags key with
    | Some i => listField dec i <$> tags !! i
    | None => None
    end.
Proof.
  unfold findField, fieldIndex.
  rewrite (find_imap (listField dec) (λ t, String.eqb t key)) by done.
  rewrite (find_imap (listField dec) (λ t, equalFold t key)) by done.
  destruct (findIndex (λ t, String.eqb t key) tags) as [i|] eqn:Hi; [|done].
  apply findIndex_Some in Hi as (t & -> & _). done.
Qed.

(** An object with one member, decoded into a struct kept as a list: the
    selected position is decoded in place, nothing else is touched. *)
Lemma decodeStruct_singleton {A : Type} (dec : json → A → A * bool)
    (tags : list string) (key : string) (j : json) (s : list A) :
  decodeStruct (imap (listField dec) tags) (JObject [(key, j)]) s
  = match fieldIndex tags key with
    | Some i =>
        match s !! i with
        | Some a => (<[i := (dec j a).1]> s, (dec j a).2 || false)
        | None => (s, false)
        end
    | None => (s, false)
    end.
Proof.
  cbn [decodeStruct decodeMembers]. rewrite findField_listField.
  destruct (fieldIndex tags key) as [i|] eqn:Hi; [|done].
  destruct (fieldIndex_Some _ _ _ Hi) as [t ->].
  cbn [fmap option_fmap option_map listField fieldDecode].
  destruct (s !! i) as [a|]; [|done].
  by destruct (dec j a).
Qed.

(** ** The blend-shape handler *)

Lemma withFace_same (st : vrmType) :
  withFace st (FaceBlendShapes (BlendShapes st)) = st.
Proof. by destruct st as [b [d f]]. Qed.

Lemma handleBlendVal_wellformed (addr key : string) (v : float32)
    (rest : list oscArg) (st : vrmType) :
  handleBlendVal (mkMessage addr (ArgString key :: ArgFloat32 v :: rest)) st
  = Returned
      (if isNaN v then st
       else match fieldIndex faceTags key with
            | Some i =>
                withFace st
                  (<[i := spec_clamp v]> (FaceBlendShapes (BlendShapes st)))
            | None => st
            end).
Proof.
  unfold handleBlendVal, index.
  cbn [Arguments lookup list_lookup mbind outcome_bind].
  rewrite handler_clamp.
  unfold marshalSingleton, marshalFloat32.
  destruct (isNaN v) eqn:Hnan.
  - rewrite spec_clamp_nan, Hnan by done. done.
  - destruct (inUnit_finite _ (spec_clamp_inUnit v Hnan)) as [-> ->].
    cbn [orb mbind result_bind].
    unfold vrmFaceBlendShapes_fields. rewrite decodeStruct_singleton.
    destruct (fieldIndex faceTags key) as [i|]; [|by destruct st as [b [d f]]].
    destruct (FaceBlendShapes (BlendShapes st) !! i) as [a|] eqn:Ha; [done |].
    rewrite list_insert_ge by (by apply lookup_ge_None).
    by destruct st as [b [d f]].
Qed.

Lemma wf_vrm_withFace (st : vrmType) (i : nat) (x : float32) :
  wf_vrm st →
  wf_vrm (withFace st (<[i := x]> (FaceBlendShapes (BlendShapes st)))).
Proof. intros [Hb Hf]. split; cbn; [done | by rewrite length_insert]. Qed.

(** Every way the blend handler can return. *)
Lemma handleBlendVal_returns (msg : oscMessage) (st st' : vrmType) :
  handleBlendVal msg st = Returned st' →
  st' = st ∨
  ∃ key v rest i,
    Arguments msg = ArgString key :: ArgFloat32 v :: rest ∧
    isNaN v = false ∧ fieldIndex faceTags key = Some i ∧
    st' = withFace st
            (<[i := spec_clamp v]> (FaceBlendShapes (BlendShapes st))).
Proof.
  destruct msg as [addr args].
  destruct args as [|a0 args]; [done |].
  destruct a0 as [| |key| | | | | |];
    try (cbn; intros [= <-]; by left).
  destruct args as [|a1 rest]; [done |].
  destruct a1 as [|v| | | | | | |];
    try (cbn; intros [= <-]; by left).
  rewrite handleBlendVal_wellformed.
  destruct (isNaN v) eqn:Hnan; [intros [= <-]; by left |].
  destruct (fieldIndex faceTags key) as [i|] eqn:Hi;
    [| intros [= <-]; by left].
  intros [= <-]. right. by exists key, v, rest, i.
Qed.

(** The blend handler keeps every stored face value in [0,1]. *)
Lemma handleBlendVal_inUnit (msg : oscMessage) (st st' : vrmType) :
  Forall (λ x, inUnit x = true) (FaceBlendShapes (BlendShapes st)) →
  handleBlendVal msg st = Returned st' →
  Forall (λ x, inUnit x = true) (FaceBlendShapes (BlendShapes st')).
Proof.
  intros Hinv [->|(key & v & rest & i & _ & Hnan & _ & ->)]%handleBlendVal_returns;
    [done |].
  cbn. destruct (decide (i < List.length (FaceBlendShapes (BlendShapes st)))).
  - apply Forall_insert; [done |]. by apply spec_clamp_inUnit.
  - rewrite list_insert_ge by lia. done.
Qed.

(** ** The bone handler *)

Lemma marshalFloat32_finite (f : float32) :
  isFinite f = true → marshalFloat32 f = Ok (JNumber f).
Proof.
  unfold isFinite, marshalFloat32. by destruct (isNaN f || isInf f).
Qed.

Ltac marshal_step :=
  match goal with
  | |- context [if ?c then Err _ else _] =>
      destruct c; [discriminate |]; cbn [mbind result_bind]
  end.

(** What [json.Marshal] writes for a bone, [json.Unmarshal] reads back
    into any bone: every field of the target is overwritten. *)
Lemma marshalBone_roundtrip (b old : vrmBone) (j : json) :
  marshalBone b = Ok j → decodeStruct vrmBone_fields j old = (b, false).
Proof.
  destruct b as [[x y z] [[qx qy qz qw] [az po]]].
  unfold marshalBone, marshalPosition, marshalRotation, marshalQuaternion,
    marshalSpherical, marshalFloat32.
  cbn [Position Rotation Quaternion Spherical pos_X pos_Y pos_Z
       quat_X quat_Y quat_Z quat_W AzimuthAngle PolarAngle].
  do 9 marshal_step.
  intros [= <-]. vm_compute. reflexivity.
Qed.

Lemma marshalBone_finite (v0 v1 v2 v3 v4 v5 v6 : float32) :
  Forall (λ f, isFinite f = true) [v0; v1; v2; v3; v4; v5; v6] →
  ∃ j, marshalBone (boneOf v0 v1 v2 v3 v4 v5 v6) = Ok j.
Proof.
  intros H. repeat (apply Forall_cons in H as [? H]).
  unfold marshalBone, marshalPosition, marshalRotation, marshalQuaternion,
    marshalSpherical, boneOf.
  cbn [Position Rotation Quaternion Spherical pos_X pos_Y pos_Z
       quat_X quat_Y quat_Z quat_W AzimuthAngle PolarAngle].
  rewrite !marshalFloat32_finite by done.
  cbn [mbind result_bind]. eauto.
Qed.

(** The end of the bone handler: marshal the one-entry map, unmarshal it
    into [liveVRM.Bones]. *)
Lemma storeBone (key : string) (b : vrmBone) (st : vrmType) :
  match marshalSingleton marshalBone key b with
  | Err _ => Returned st
  | Ok newBoneBytes =>
      let '(bones, _) :=
        decodeStruct vrmBones_fields newBoneBytes (Bones st) in
      Returned (mkVRM bones (BlendShapes st))
  end
  = Returned
      match marshalBone b, fieldIndex boneTags key with
      | Ok _, Some i => withBones st (<[i := b]> (Bones st))
      | _, _ => st
      end.
Proof.
  unfold marshalSingleton.
  destruct (marshalBone b) as [j|] eqn:Hj; cbn [mbind result_bind]; [|done].
  unfold vrmBones_fields. rewrite decodeStruct_singleton.
  destruct (fieldIndex boneTags key) as [i|]; [|by destruct st].
  destruct (Bones st !! i) as [a|] eqn:Ha.
  - by rewrite (marshalBone_roundtrip b a j Hj).
  - rewrite list_insert_ge by (by apply lookup_ge_None). by destruct st.
Qed.

Lemma camelToSnake_snakeCase (s : string) : camelToSnake s = Ok (snakeCase s).
Proof. reflexivity. Qed.

Lemma parseBone_loop_floats (fs acc : list float32) :
  parseBone_loop (ArgFloat32 <$> fs) acc = Ok (acc ++ fs).
Proof.
  revert acc. induction fs as [|f fs IH]; intros acc; cbn.
  - by rewrite app_nil_r.
  - by rewrite IH, <- app_assoc.
Qed.

(** A bone message is a string key followed by [float32]s only, or the
    handler returns with [liveVRM] as it was (or panics). *)
Lemma parseBone_loop_Ok (args : list oscArg) (acc value : list float32) :
  parseBone_loop args acc = Ok value →
  ∃ fs, args = ArgFloat32 <$> fs ∧ value = acc ++ fs.
Proof.
  revert acc. induction args as [|a args IH]; intros acc; cbn.
  - intros [= <-]. exists []. by rewrite app_nil_r.
  - destruct a as [|f| | | | | | |]; try done.
    intros (fs & -> & ->)%IH. exists (f :: fs). by rewrite <- app_assoc.
Qed.

(** The handler on a string key followed by [float32]s. *)
Lemma handleBonePos_floats (addr rawKey : string) (fs : list float32)
    (st : vrmType) :
  handleBonePos (mkMessage addr (ArgString rawKey :: (ArgFloat32 <$> fs))) st
  = match fs with
    | v0 :: v1 :: v2 :: v3 :: v4 :: v5 :: v6 :: _ =>
        Returned
          match marshalBone (boneOf v0 v1 v2 v3 v4 v5 v6),
                fieldIndex boneTags (snakeCase rawKey) with
          | Ok _, Some i =>
              withBones st (<[i := boneOf v0 v1 v2 v3 v4 v5 v6]> (Bones st))
          | _, _ => st
          end
    | _ => Panicked "index out of range"
    end.
Proof.
  unfold handleBonePos, parseKey, parseBone, index, sliceFrom1.
  cbn [Arguments lookup list_lookup mbind outcome_bind].
  rewrite camelToSnake_snakeCase. cbn [mbind result_bind].
  rewrite parseBone_loop_floats. cbn [app].
  do 7 (destruct fs as [|? fs]; [reflexivity |]).
  cbn [lookup list_lookup mbind outcome_bind].
  apply storeBone.
Qed.

(** Every way the bone handler can return. *)
Lemma handleBonePos_returns (msg : oscMessage) (st st' : vrmType) :
  handleBonePos msg st = Returned st' →
  st' = st ∨
  ∃ i b, mentionedBone msg = Some i ∧
         st' = withBones st (<[i := b]> (Bones st)).
Proof.
  destruct msg as [addr args].
  destruct args as [|a0 args]; [done |].
  destruct a0 as [| |rawKey| | | | | |];
    try (cbn; intros [= <-]; by left).
  destruct (parseBone_loop args []) as [value|e] eqn:Hv.
  - apply parseBone_loop_Ok in Hv as (fs & -> & _).
    rewrite handleBonePos_floats.
    do 7 (destruct fs as [|? fs]; [done |]).
    destruct (marshalBone _); [| intros [= <-]; by left].
    unfold mentionedBone. cbn [Arguments].
    destruct (fieldIndex boneTags (snakeCase rawKey)) as [i|];
      [| intros [= <-]; by left].
    intros [= <-]. right. eauto.
  - unfold handleBonePos, parseKey, parseBone, index, sliceFrom1.
    cbn [Arguments lookup list_lookup mbind outcome_bind].
    rewrite camelToSnake_snakeCase. cbn [mbind result_bind].
    rewrite Hv. intros [= <-]. by left.
Qed.

(** ** Sessions *)

Lemma handle_inUnit (call : handlerCall) (st st' : vrmType) :
  Forall (λ x, inUnit x = true) (FaceBlendShapes (BlendShapes st)) →
  handle call st = Returned st' →
  Forall (λ x, inUnit x = true) (FaceBlendShapes (BlendShapes st')).
Proof.
  intros Hinv. destruct call as [msg|msg]; cbn [handle].
  - by apply (handleBlendVal_inUnit msg st).
  - by intros [->|(i & b & _ & ->)]%handleBonePos_returns.
Qed.

Lemma run_inUnit (calls : list handlerCall) (st st' : vrmType) :
  Forall (λ x, inUnit x = true) (FaceBlendShapes (BlendShapes st)) →
  run calls st = Returned st' →
  Forall (λ x, inUnit x = true) (FaceBlendShapes (BlendShapes st')).
Proof.
  revert st. induction calls as [|call rest IH]; intros st Hinv; cbn [run].
  - by intros [= <-].
  - destruct (handle call st) as [st1| |] eqn:Hd; [|done|done].
    cbn [mbind outcome_bind]. apply IH. by apply (handle_inUnit call st).
Qed.

Lemma liveVRM_init_inUnit :
  Forall (λ x, inUnit x = true) (FaceBlendShapes (BlendShapes liveVRM_init)).
Proof. unfold liveVRM_init. cbn [BlendShapes FaceBlendShapes]. by apply Forall_replicate. Qed.

Lemma wf_vrm_init : wf_vrm liveVRM_init.
Proof.
  split; unfold liveVRM_init; cbn [Bones BlendShapes FaceBlendShapes];
    by rewrite length_replicate.
Qed.

(** C7. A blend message whose key selects a face blend shape stores the
    input clamped to [0,1] in that blend shape: 1 for an input above 1, 0
    for an input below 0, the input itself when it lies in [0,1] (so 1.5 is
    stored as 1.0, -0.3 as 0.0, 0.42 unchanged).  An out-of-range number is
    stored clamped, not rejected; only a NaN, which [json.Marshal] refuses,
    stores nothing.  Every face value stays in [0,1]. *)
Theorem blend_value_is_clamped (addr key : string) (v : float32)
    (rest : list oscArg) (st : vrmType) (i : nat) :
  wf_vrm st →
  fieldIndex faceTags key = Some i →
  let msg := mkMessage addr (ArgString key :: ArgFloat32 v :: rest) in
  (isNaN v = false →
     ∃ st', handleBlendVal msg st = Returned st' ∧ wf_vrm st' ∧
            FaceBlendShapes (BlendShapes st') !! i = Some (spec_clamp v)) ∧
  (f32_gt v f32_one = true ∨ f32_lt v f32_zero = true → isNaN v = false) ∧
  (isNaN v = true → handleBlendVal msg st = Returned st) ∧
  (f32_gt v f32_one = true → spec_clamp v = f32_one) ∧
  (f32_lt v f32_zero = true → spec_clamp v = f32_zero) ∧
  (inUnit v = true → spec_clamp v = v) ∧
  (isNaN v = false → inUnit (spec_clamp v) = true) ∧
  spec_clamp f32_1_5 = f32_one ∧
  spec_clamp f32_neg_0_3 = f32_zero ∧
  spec_clamp f32_0_42 = f32_0_42 ∧
  (∀ calls st1,
     run calls liveVRM_init = Returned st1 →
     Forall (λ x, inUnit x = true) (FaceBlendShapes (BlendShapes st1))).
Proof.
  intros Hwf Hi msg. subst msg. rewrite handleBlendVal_wellformed, Hi.
  repeat split.
  - intros ->. eexists. split; [done |]. split.
    + by apply wf_vrm_withFace.
    + cbn. apply list_lookup_insert_eq.
      destruct Hwf as [_ ->]. by apply fieldIndex_lt in Hi.
  - by intros [H|H]; destruct v.
  - by intros ->.
  - apply spec_clamp_above.
  - apply spec_clamp_below.
  - apply spec_clamp_within.
  - apply spec_clamp_inUnit.
  - intros calls st1 Hrun. apply (run_inUnit calls liveVRM_init); [|done].
    apply liveVRM_init_inUnit.
Qed.

(** C10. The blend handler looks the raw key up among the 52 face
    blend-shape names, exactly or without case, and applies no key
    normalisation: a key that selects a name is stored under it, and a
    message whose key selects none, such as the snake_case
    [eye_blink_left], returns without an error and leaves [liveVRM] as it
    was. *)
Theorem blend_key_is_not_normalized :
  List.length faceTags = 52 ∧
  (∀ addr key value rest st,
     fieldIndex faceTags key = None →
     handleBlendVal (mkMessage addr (ArgString key :: value :: rest)) st
     = Returned st) ∧
  (∀ addr key v rest st i,
     fieldIndex faceTags key = Some i → isNaN v = false →
     handleBlendVal (mkMessage addr (ArgString key :: ArgFloat32 v :: rest)) st
     = Returned
         (withFace st
            (<[i := spec_clamp v]> (FaceBlendShapes (BlendShapes st))))) ∧
  fieldIndex faceTags "EyeBlinkLeft" = Some 0 ∧
  fieldIndex faceTags "eyeblinkleft" = Some 0 ∧
  fieldIndex faceTags "EYEBLINKLEFT" = Some 0 ∧
  fieldIndex faceTags "eye_blink_left" = None ∧
  (∀ tag, In tag faceTags →
     ∃ k, normalizeVMCKey tag = Ok k ∧ fieldIndex faceTags k = None).
Proof.
  split; [done |]. split.
  { intros addr key value rest st Hk.
    destruct value as [|v| | | | | | |]; try reflexivity.
    rewrite handleBlendVal_wellformed, Hk. by destruct (isNaN v). }
  split.
  { intros addr key v rest st i Hk Hv.
    by rewrite handleBlendVal_wellformed, Hk, Hv. }
  do 4 (split; [vm_compute; reflexivity |]).
  intros tag Htag.
  assert (forallb (λ t, match normalizeVMCKey t with
                        | Ok k => bool_decide (fieldIndex faceTags k = None)
                        | Err _ => false
                        end) faceTags = true) as H
    by (vm_compute; reflexivity).
  apply (proj1 (forallb_forall _ _) H) in Htag.
  destruct (normalizeVMCKey tag) as [k|]; [|discriminate Htag].
  exists k. split; [reflexivity |]. by apply bool_decide_eq_true in Htag.
Qed.

(** C8. A bone delta and a blend delta merge exactly the one key the
    message names into [liveVRM]: whenever a handler returns, every bone and
    every face blend shape other than the one named holds the value it held
    before, and nothing outside the handler's own struct is touched; a
    well-formed delta whose key names a field stores its value there. *)
Theorem delta_merges_one_key :
  (∀ msg st st',
     handleBonePos msg st = Returned st' →
     BlendShapes st' = BlendShapes st ∧
     ∀ j, mentionedBone msg ≠ Some j → Bones st' !! j = Bones st !! j) ∧
  (∀ msg st st',
     handleBlendVal msg st = Returned st' →
     Bones st' = Bones st ∧
     DynamicBlendShapes (BlendShapes st')
       = DynamicBlendShapes (BlendShapes st) ∧
     ∀ j, mentionedShape msg ≠ Some j →
          FaceBlendShapes (BlendShapes st') !! j
          = FaceBlendShapes (BlendShapes st) !! j) ∧
  (∀ addr rawKey v0 v1 v2 v3 v4 v5 v6 st i,
     wf_vrm st →
     Forall (λ f, isFinite f = true) [v0; v1; v2; v3; v4; v5; v6] →
     fieldIndex boneTags (snakeCase rawKey) = Some i →
     ∃ st',
       handleBonePos
         (mkMessage addr
            (ArgString rawKey :: (ArgFloat32 <$> [v0; v1; v2; v3; v4; v5; v6])))
         st = Returned st' ∧
       Bones st' !! i = Some (boneOf v0 v1 v2 v3 v4 v5 v6)) ∧
  (∀ addr key v st i,
     wf_vrm st → isNaN v = false → fieldIndex faceTags key = Some i →
     ∃ st',
       handleBlendVal (mkMessage addr [ArgString key; ArgFloat32 v]) st
       = Returned st' ∧
       FaceBlendShapes (BlendShapes st') !! i = Some (spec_clamp v)).
Proof.
  split; [| split; [| split]].
  - intros msg st st' [->|(i & b & Hi & ->)]%handleBonePos_returns; [done |].
    split; [done |]. intros j Hj. cbn.
    apply list_lookup_insert_ne. congruence.
  - intros msg st st'
      [->|(key & v & rest & i & Hargs & _ & Hi & ->)]%handleBlendVal_returns;
      [done |].
    do 2 (split; [done |]). intros j Hj. cbn.
    apply list_lookup_insert_ne.
    unfold mentionedShape in Hj. rewrite Hargs in Hj. congruence.
  - intros addr rawKey v0 v1 v2 v3 v4 v5 v6 st i [Hb _] Hfin Hi.
    rewrite handleBonePos_floats, Hi.
    destruct (marshalBone_finite _ _ _ _ _ _ _ Hfin) as [j ->].
    eexists. split; [done |]. cbn.
    apply list_lookup_insert_eq. rewrite Hb. by apply fieldIndex_lt in Hi.
  - intros addr key v st i [_ Hf] Hv Hi.
    rewrite handleBlendVal_wellformed, Hv, Hi.
    eexists. split; [done |]. cbn.
    apply list_lookup_insert_eq. rewrite Hf. by apply fieldIndex_lt in Hi.
Qed.

(** C1 (what the code does on a malformed message).  A bone message with
    fewer than seven coordinates, a blend message without a value and a
    message without arguments make the handler panic on an index out of
    range; a bone message with more than seven coordinates is accepted and
    changes [liveVRM]. *)
Theorem malformed_arity_panics :
  (∀ addr rawKey fs st,
     List.length fs < 7 →
     handleBonePos (mkMessage addr (ArgString rawKey :: (ArgFloat32 <$> fs))) st
     = Panicked "index out of range") ∧
  (∀ addr key st,
     handleBlendVal (mkMessage addr [ArgString key]) st
     = Panicked "index out of range") ∧
  (∀ addr st,
     handleBonePos (mkMessage addr []) st = Panicked "index out of range" ∧
     handleBlendVal (mkMessage addr []) st = Panicked "index out of range") ∧
  handleBonePos
    (mkMessage "/VMC/Ext/Bone/Pos"
       [ArgString "Hips"; ArgFloat32 f32_one; ArgFloat32 f32_one;
        ArgFloat32 f32_one])
    liveVRM_init
  = Panicked "index out of range" ∧
  (∃ st',
     handleBonePos
       (mkMessage "/VMC/Ext/Bone/Pos"
          (ArgString "Hips" :: (ArgFloat32 <$> replicate 8 f32_one)))
       liveVRM_init
     = Returned st' ∧
     Bones st' !! 0 ≠ Bones liveVRM_init !! 0).
Proof.
  split; [| split; [| split; [| split]]].
  - intros addr rawKey fs st Hlen. rewrite handleBonePos_floats.
    do 7 (destruct fs as [|? fs]; [reflexivity |]).
    cbn in Hlen. lia.
  - reflexivity.
  - intros addr st. split; reflexivity.
  - vm_compute. reflexivity.
  - eexists. split; [vm_compute; reflexivity |]. vm_compute. congruence.
Qed.

(** ** The receiver switch *)

(** C5. When [/api/receiver/update] is asked for a registered receiver B
    while A is active, it returns with B as the active name and the active
    receiver, having called [Stop] on A exactly once and [Start] on B
    exactly once, and nothing else, the stop before the start. *)
Theorem switch_stops_then_starts (receiverMap : gmap string receiverPtr)
    (st : routerState) (B : string) (a b : nat) :
  receiverMap !! B = Some (Some b) →
  activeReceiver st = Some a →
  let '(st', calls) := receiverUpdate receiverMap (Ok B) st in
  activeName st' = B ∧
  activeReceiver st' = Some b ∧
  calls = [CallStop (Some a); CallStart (Some b)] ∧
  calls_of (CallStop (Some a)) calls = 1 ∧
  calls_of (CallStart (Some b)) calls = 1 ∧
  (∃ i j, i < j ∧ calls !! i = Some (CallStop (Some a)) ∧
          calls !! j = Some (CallStart (Some b))).
Proof.
  intros HB Ha. unfold receiverUpdate, receiverAt. rewrite HB, Ha. cbn.
  repeat split.
  - by repeat case_decide.
  - by repeat case_decide.
  - exists 0, 1. split; [lia | done].
Qed.

(** An unknown name changes nothing and calls nothing. *)
Lemma receiverUpdate_unknown (receiverMap : gmap string receiverPtr)
    (st : routerState) (name : string) :
  receiverAt receiverMap name = None →
  receiverUpdate receiverMap (Ok name) st = (st, []).
Proof. intros H. unfold receiverUpdate. by rewrite H. Qed.

(** ** The camera routes *)

Lemma ReadJSON_render (u : cameraUpdate) (prev : cameraType) :
  ReadJSON (ReadFrame (renderCamera u)) prev = (mergeCamera u prev, false).
Proof.
  destruct prev as [[px py pz] [tx ty tz]].
  destruct u as [[[[x|] [y|] [z|]]|] [[[x'|] [y'|] [z'|]]|]];
    vm_compute; reflexivity.
Qed.

Lemma mergeCamera_full (c prev : cameraType) :
  mergeCamera (fullUpdate c) prev = c.
Proof. by destruct c as [[] []]. Qed.

(** One read of [/live/write/camera]. *)
Lemma writeCamera_one (r : wsRead) (scene : Scene) :
  writeCamera [r] scene
  = (mkScene (ReadJSON r (Camera scene)).1,
     if (ReadJSON r (Camera scene)).2 then []
     else [PoolUpdate (ReadJSON r (Camera scene)).1]).
Proof.
  cbn [writeCamera]. by destruct (ReadJSON r (Camera scene)) as [cam []].
Qed.

(** The frame [json.Marshal] writes for a camera carries all six
    coordinates. *)
Lemma marshalCamera_full (c : cameraType) (j : json) :
  marshalCamera c = Ok j → j = renderCamera (fullUpdate c).
Proof.
  destruct c as [[px py pz] [tx ty tz]].
  unfold marshalCamera, marshalPosition, marshalFloat32.
  cbn [cam_Position cam_Target pos_X pos_Y pos_Z].
  do 6 marshal_step. by intros [= <-].
Qed.

(** C4 (amended). A camera update read on [/live/write/camera] is decoded
    into the canonical camera in place: a coordinate the update carries is
    overwritten, a coordinate it omits keeps its previous value, and an
    update that carries all six coordinates (such as the frame
    [json.Marshal] writes for a camera) replaces the camera whole.  The
    resulting canonical camera is then published to the pool, and the
    callback of a read-subscriber that is handed it stores it and writes it
    to its connection. *)
Theorem camera_update_is_merged_then_published (u : cameraUpdate)
    (scene : Scene) :
  let camera := mergeCamera u (Camera scene) in
  writeCamera [ReadFrame (renderCamera u)] scene
    = (mkScene camera, [PoolUpdate camera]) ∧
  (∀ c, writeCamera [ReadFrame (renderCamera (fullUpdate c))] scene
          = (mkScene c, [PoolUpdate c])) ∧
  (∀ c j, marshalCamera c = Ok j →
          writeCamera [ReadFrame j] scene = (mkScene c, [PoolUpdate c])) ∧
  (∀ r scene' events,
     writeCamera [r] scene = (scene', events) →
     events = [] ∨ events = [PoolUpdate (Camera scene')]) ∧
  (∀ c, readCamera_callback (Some c) false scene = (mkScene c, [WriteJSON c])).
Proof.
  cbn zeta.
  assert (∀ c, writeCamera [ReadFrame (renderCamera (fullUpdate c))] scene
               = (mkScene c, [PoolUpdate c])) as Hfull.
  { intros c. by rewrite writeCamera_one, ReadJSON_render, mergeCamera_full. }
  split; [by rewrite writeCamera_one, ReadJSON_render |].
  split; [exact Hfull |].
  split; [intros c j ->%marshalCamera_full; apply Hfull |].
  split; [| done].
  intros r scene' events. rewrite writeCamera_one.
  destruct (ReadJSON r (Camera scene)) as [cam []]; intros [= <- <-]; auto.
Qed.

(** ** The camera pool *)

Lemma deliveries_insert (h : list chanState) (c : nat) (st x : chanState) :
  h !! c = Some st →
  deliveries (<[c := x]> h) + List.length (sent st)
  = deliveries h + List.length (sent x).
Proof.
  revert c. induction h as [|y h IH]; intros c; [done |].
  destruct c as [|c].
  - intros [= ->]. cbn. lia.
  - intros Hc. change (<[S c := x]> (y :: h)) with (y :: <[c := x]> h).
    specialize (IH c Hc). cbn [deliveries]. lia.
Qed.

Lemma chanSend_open (c : nat) (st : chanState) (msg : cameraType)
    (h : list chanState) :
  h !! c = Some st → closed st = false →
  chanSend (Some c) msg h = Returned (<[c := mkChan (sent st ++ [msg]) false]> h).
Proof. intros Hc Hopen. unfold chanSend. by rewrite Hc, Hopen. Qed.

(** The inner loop of [start] over clients that all hold open channels: it
    returns, and every channel has gained one copy of [msg] per client that
    holds it. *)
Lemma start_range_spec (clients : list websocketClient) (msg : cameraType)
    (h : list chanState) :
  Forall (λ cl, ∃ c st, Channel cl = Some c ∧ h !! c = Some st ∧
                        closed st = false) clients →
  ∃ h', start_range clients msg h = Returned h' ∧
        (∀ c st, h !! c = Some st →
           h' !! c = Some (mkChan (sent st ++ replicate (sendsTo clients c) msg)
                                  (closed st))) ∧
        (∀ c, h !! c = None → h' !! c = None) ∧
        deliveries h' = deliveries h + List.length clients.
Proof.
  revert h. induction clients as [|cl rest IH]; intros h Hall.
  - exists h. split; [done |]. split; [| split; [done | cbn; lia]].
    intros c [s b] Hc. cbn. by rewrite app_nil_r.
  - apply Forall_cons in Hall as [(c0 & st0 & Hch & Hc0 & Hopen) Hrest].
    cbn [start_range]. rewrite Hch, (chanSend_open c0 st0 msg h Hc0 Hopen).
    cbn [mbind outcome_bind].
    set (h1 := <[c0 := mkChan (sent st0 ++ [msg]) false]> h).
    destruct (IH h1) as (h' & Hrun & Hsent & Hnone & Hcount).
    { eapply Forall_impl; [exact Hrest |].
      intros cl' (c & st & Hc & Hlook & Hop). unfold h1.
      destruct (decide (c = c0)) as [->|Hne].
      - exists c0, (mkChan (sent st0 ++ [msg]) false).
        split; [done |]. split; [|done].
        apply list_lookup_insert_eq. by apply lookup_lt_Some in Hc0.
      - exists c, st. by rewrite list_lookup_insert_ne. }
    exists h'. split; [done |]. split; [| split].
    + intros c st Hc. unfold sendsTo. rewrite filter_cons.
      destruct (decide (c = c0)) as [->|Hne].
      * rewrite decide_True by done.
        assert (st = st0) as -> by congruence.
        rewrite (Hsent c0 (mkChan (sent st0 ++ [msg]) false)).
        -- cbn. rewrite Hopen. by rewrite <- app_assoc.
        -- apply list_lookup_insert_eq. by apply lookup_lt_Some in Hc0.
      * rewrite decide_False by congruence.
        apply Hsent. unfold h1. by rewrite list_lookup_insert_ne.
    + intros c Hc. apply Hnone. unfold h1.
      rewrite list_lookup_insert_ne; [done |]. congruence.
    + rewrite Hcount. unfold h1.
      pose proof (deliveries_insert h c0 st0
                    (mkChan (sent st0 ++ [msg]) false) Hc0) as Hd.
      cbn in Hd. rewrite length_app in Hd. cbn in *. lia.
Qed.

Lemma filter_length_none {A : Type} (P : A → Prop) `{∀ x, Decision (P x)}
    (l : list A) :
  (∀ x, x ∈ l → ¬ P x) → List.length (filter P l) = 0.
Proof.
  induction l as [|y l IH]; intros Hl; [done |].
  rewrite filter_cons, decide_False by (apply Hl; left).
  apply IH. intros x Hx. apply Hl. by right.
Qed.

Lemma filter_length_once {A B : Type} `{EqDecision B} (f : A → B)
    (l : list A) (x : A) :
  NoDup (f <$> l) → x ∈ l →
  List.length (filter (λ y, f y = f x) l) = 1.
Proof.
  induction l as [|y l IH]; [by intros _ ?%elem_of_nil |].
  rewrite fmap_cons, NoDup_cons, filter_cons. intros [Hy Hl] Hx.
  destruct (decide (f y = f x)) as [Heq|Hne].
  - cbn. f_equal. apply filter_length_none.
    intros z Hz Hfz. apply Hy.
    rewrite Heq, <- Hfz. by apply list_elem_of_fmap_2.
  - apply elem_of_cons in Hx as [->|Hx]; [done |]. by apply IH.
Qed.

Lemma newPool_wf : poolWF newPool.
Proof. split; [done |]. split; intros *; cbn; by rewrite lookup_empty. Qed.

(** A well-formed pool stays so when a client is added. *)
Lemma add_wf (id : string) (p : websocketPool) : poolWF p → poolWF (add id p).
Proof.
  intros (Hidle & Hopen & Hinj). unfold add, makeChan.
  split; [done |]. split; cbn.
  - intros id' cl. rewrite lookup_insert. case_decide as Hid.
    + intros [= <-]. exists (List.length (heap p)), (mkChan [] false).
      split; [done |]. split; [|done].
      by rewrite lookup_app_r, Nat.sub_diag by lia.
    + intros (c & st & ? & Hc & ?)%Hopen. exists c, st.
      split; [done |]. split; [|done].
      rewrite lookup_app_l; [done |]. by apply lookup_lt_Some in Hc.
  - assert (∀ i cl, Clients p !! i = Some cl →
              Channel cl ≠ Some (List.length (heap p))) as Hfresh.
    { intros i cl (c & st & -> & Hc%lookup_lt_Some & _)%Hopen [= ->]. lia. }
    intros id1 id2 cl1 cl2. rewrite !lookup_insert.
    repeat case_decide; subst; try done.
    + intros [= <-] H2 Hch. symmetry in Hch. by apply Hfresh in H2.
    + intros H1 [= <-] Hch. by apply Hfresh in H1.
    + apply Hinj.
Qed.

(** The clients a [range] yields all hold open channels, each its own. *)
Lemma range_clients (p : websocketPool)
    (order : list (string * websocketClient)) :
  poolWF p → order ≡ₚ map_to_list (Clients p) →
  Forall (λ cl, ∃ c st, Channel cl = Some c ∧ heap p !! c = Some st ∧
                        closed st = false) (order.*2) ∧
  NoDup (Channel <$> order.*2) ∧
  (∀ id cl, Clients p !! id = Some cl ↔ (id, cl) ∈ order) ∧
  List.length order = size (Clients p).
Proof.
  intros (_ & Hopen & Hinj) Hperm.
  assert (∀ id cl, Clients p !! id = Some cl ↔ (id, cl) ∈ order) as Hin.
  { intros id cl. rewrite Hperm. symmetry. apply elem_of_map_to_list. }
  split; [| split; [| split; [done |]]].
  - apply Forall_fmap, Forall_forall. intros [id cl] Hx.
    apply (Hopen id). by apply Hin.
  - rewrite <- list_fmap_compose. apply NoDup_fmap_2_strong.
    + intros [id1 cl1] [id2 cl2] H1%Hin H2%Hin Hch. cbn in Hch.
      assert (id1 = id2) as -> by by eapply Hinj. congruence.
    + rewrite Hperm. apply NoDup_map_to_list.
  - by rewrite Hperm, length_map_to_list.
Qed.

(** An update on a well-formed pool. *)
Lemma update_spec (p : websocketPool)
    (order : list (string * websocketClient)) (v : cameraType) :
  poolWF p → order ≡ₚ map_to_list (Clients p) →
  ∃ h',
    update order v p = Returned (mkPool (Clients p) [] h') ∧
    (∀ id cl c st,
       Clients p !! id = Some cl → Channel cl = Some c →
       heap p !! c = Some st →
       h' !! c = Some (mkChan (sent st ++ [v]) (closed st))) ∧
    (∀ c,
       (∀ id cl, Clients p !! id = Some cl → Channel cl ≠ Some c) →
       h' !! c = heap p !! c) ∧
    deliveries h' = deliveries (heap p) + count p.
Proof.
  intros Hwf Hperm.
  destruct (range_clients p order Hwf Hperm) as (Hall & Hnodup & Hin & Hlen).
  destruct (start_range_spec (order.*2) v (heap p) Hall)
    as (h' & Hrun & Hsent & Hnone & Hcount).
  exists h'. unfold update, start_turn, send.
  cbn [BroadcastChannel Clients heap]. rewrite (proj1 Hwf). cbn [app].
  rewrite Hrun. cbn [mbind outcome_bind].
  split; [done |]. split; [| split].
  - intros id cl c st Hcl Hch Hc. rewrite (Hsent c st Hc).
    assert (sendsTo (order.*2) c = 1) as ->; [|done].
    unfold sendsTo. rewrite <- Hch.
    apply (filter_length_once Channel (order.*2) cl Hnodup).
    apply list_elem_of_fmap. exists (id, cl). split; [done |]. by apply Hin.
  - intros c Hc. destruct (heap p !! c) as [[s b]|] eqn:Hlook.
    + rewrite (Hsent c _ Hlook). unfold sendsTo.
      rewrite filter_length_none; [cbn; by rewrite app_nil_r |].
      intros cl [[id cl'] [-> Hx%Hin]]%list_elem_of_fmap. by apply (Hc id).
    + by apply Hnone.
  - rewrite Hcount, length_fmap, Hlen. done.
Qed.

Lemma update_wf (p p' : websocketPool)
    (order : list (string * websocketClient)) (v : cameraType) :
  poolWF p → order ≡ₚ map_to_list (Clients p) →
  update order v p = Returned p' → poolWF p'.
Proof.
  intros Hwf Hperm.
  destruct (update_spec p order v Hwf Hperm) as (h' & -> & Hsent & _).
  intros [= <-]. destruct Hwf as (Hidle & Hopen & Hinj).
  split; [done |]. split; [|done]. cbn.
  intros id cl Hcl. destruct (Hopen id cl Hcl) as (c & st & Hch & Hc & Hop).
  exists c, (mkChan (sent st ++ [v]) (closed st)).
  split; [done |]. split; [|done]. by eapply Hsent.
Qed.

(** [remove] of a registered client closes its channel and forgets it. *)
Lemma remove_spec (p : websocketPool) (id : string) (cl : websocketClient)
    (c : nat) :
  poolWF p → Clients p !! id = Some cl → Channel cl = Some c →
  ∃ st,
    heap p !! c = Some st ∧
    remove id p
    = Returned (mkPool (delete id (Clients p)) (BroadcastChannel p)
                       (<[c := mkChan (sent st) true]> (heap p))) ∧
    poolWF (mkPool (delete id (Clients p)) (BroadcastChannel p)
                   (<[c := mkChan (sent st) true]> (heap p))) ∧
    (∀ id' cl', delete id (Clients p) !! id' = Some cl' →
                Channel cl' ≠ Some c).
Proof.
  intros (Hidle & Hopen & Hinj) Hcl Hch.
  destruct (Hopen id cl Hcl) as (c' & st & Hch' & Hc & Hop).
  assert (c' = c) as -> by congruence.
  exists st. split; [done |].
  assert (∀ id' cl', delete id (Clients p) !! id' = Some cl' →
            Channel cl' ≠ Some c) as Hother.
  { intros id' cl' [Hne Hcl']%lookup_delete_Some Hch2.
    apply Hne. eapply Hinj; [done | done | congruence]. }
  split; [| split; [| done]].
  - unfold remove, clientAt, closeChan. rewrite Hcl. simpl.
    by rewrite Hch, Hc, Hop.
  - split; [done |]. split; cbn.
    + intros id' cl' Hcl'. pose proof (Hother id' cl' Hcl') as Hne.
      apply lookup_delete_Some in Hcl' as [_ Hcl'].
      destruct (Hopen id' cl' Hcl') as (c2 & st2 & Hch2 & Hc2 & Hop2).
      exists c2, st2. split; [done |]. split; [|done].
      rewrite list_lookup_insert_ne; [done |]. congruence.
    + intros id1 id2 cl1 cl2 [_ H1]%lookup_delete_Some
        [_ H2]%lookup_delete_Some. by apply Hinj.
Qed.

(** C6. An update [v] ([send] and the turn of [start] that receives it)
    delivers [v] exactly once to every client registered at that time,
    whatever the order of the range: with N clients, N deliveries.  After
    [remove] of a client, a later update returns as well and delivers
    nothing on that client's channel. *)
Theorem update_delivers_once (p : websocketPool)
    (order : list (string * websocketClient)) (v : cameraType) :
  poolWF p →
  order ≡ₚ map_to_list (Clients p) →
  ∃ p',
    update order v p = Returned p' ∧
    poolWF p' ∧ Clients p' = Clients p ∧
    (∀ id cl c,
       Clients p !! id = Some cl → Channel cl = Some c →
       delivered p' c = delivered p c ++ [v]) ∧
    deliveries (heap p') = deliveries (heap p) + count p ∧
    (∀ id cl c,
       Clients p !! id = Some cl → Channel cl = Some c →
       ∃ p1,
         remove id p = Returned p1 ∧ poolWF p1 ∧ Clients p1 !! id = None ∧
         ∀ order1 w,
           order1 ≡ₚ map_to_list (Clients p1) →
           ∃ p2, update order1 w p1 = Returned p2 ∧
                 delivered p2 c = delivered p1 c).
Proof.
  intros Hwf Hperm.
  destruct (update_spec p order v Hwf Hperm)
    as (h' & Hrun & Hsent & Hother & Hcount).
  exists (mkPool (Clients p) [] h').
  split; [done |]. split; [by eapply update_wf |]. split; [done |].
  split; [| split; [done |]].
  - intros id cl c Hcl Hch. unfold delivered. cbn [heap].
    destruct Hwf as (_ & Hopen & _).
    destruct (Hopen id cl Hcl) as (c' & st & Hch' & Hc & _).
    assert (c' = c) as -> by congruence.
    by rewrite (Hsent id cl c st Hcl Hch Hc), Hc.
  - intros id cl c Hcl Hch.
    destruct (remove_spec p id cl c Hwf Hcl Hch)
      as (st & Hc & Hrem & Hwf1 & Hgone).
    eexists. split; [exact Hrem |]. split; [done |].
    split; [cbn; apply lookup_delete_eq |].
    intros order1 w Hperm1.
    destruct (update_spec _ order1 w Hwf1 Hperm1)
      as (h2 & Hrun2 & _ & Hother2 & _).
    eexists. split; [exact Hrun2 |].
    unfold delivered. cbn [heap]. by rewrite (Hother2 c Hgone).
Qed.

(** * Further properties of the code *)

(** ** [parseBone] and the handlers on ill-typed and over-long messages *)

Lemma parseBone_loop_spec (args : list oscArg) (acc : list float32) :
  parseBone_loop args acc
  = if forallb isArgFloat32 args then Ok (acc ++ coordsOf args)
    else Err "Unable to type assert OSC message as []float32 bone coords".
Proof.
  revert acc. induction args as [|a args IH]; intros acc.
  - cbn. by rewrite app_nil_r.
  - destruct a; cbn [parseBone_loop forallb isArgFloat32 andb]; try done.
    rewrite IH. destruct (forallb isArgFloat32 args); [|done].
    cbn. by rewrite <- app_assoc.
Qed.

Lemma coordsOf_floats (fs : list float32) : coordsOf (ArgFloat32 <$> fs) = fs.
Proof. induction fs as [|f fs IH]; [done |]. cbn. by f_equal. Qed.

Lemma forallb_floats (args : list oscArg) :
  forallb isArgFloat32 args = true → args = ArgFloat32 <$> coordsOf args.
Proof.
  induction args as [|a args IH]; [done |].
  destruct a; cbn [forallb isArgFloat32 andb]; try done.
  intros H. cbn. f_equal. by apply IH.
Qed.

(** X1. [parseBone] never looks at the first argument.  It returns the
    arguments after it, in order, when all of them are [float32], whatever
    their number; it returns an error as soon as one of them is not; and it
    panics only on a message without arguments. *)
Theorem parseBone_returns_all_coordinates :
  (∀ addr a0 args,
     parseBone (mkMessage addr (a0 :: args))
     = Returned
         (if forallb isArgFloat32 args then Ok (coordsOf args)
          else Err "Unable to type assert OSC message as []float32 bone coords")) ∧
  (∀ addr a0 fs,
     parseBone (mkMessage addr (a0 :: (ArgFloat32 <$> fs))) = Returned (Ok fs)) ∧
  (∀ addr, parseBone (mkMessage addr []) = Panicked "slice bounds out of range").
Proof.
  split; [| split].
  - intros addr a0 args. unfold parseBone. cbn. by rewrite parseBone_loop_spec.
  - intros addr a0 fs. unfold parseBone. cbn.
    by rewrite parseBone_loop_floats.
  - done.
Qed.

(** The bone handler when some argument after the key is not a
    [float32]. *)
Lemma handleBonePos_ill_typed (addr rawKey : string) (args : list oscArg)
    (st : vrmType) :
  forallb isArgFloat32 args = false →
  handleBonePos (mkMessage addr (ArgString rawKey :: args)) st = Returned st.
Proof.
  intros Hargs.
  unfold handleBonePos, parseKey, parseBone, index, sliceFrom1.
  cbn [Arguments lookup list_lookup mbind outcome_bind].
  rewrite camelToSnake_snakeCase. cbn [mbind result_bind].
  by rewrite parseBone_loop_spec, Hargs.
Qed.

(** X2. A message with an argument of the wrong type is dropped: when the
    key is not a string, when an argument after the key of a bone message
    is not a [float32] (however many arguments there are), or when the value
    of a blend message is not a [float32], the handler returns and [liveVRM]
    is as it was. *)
Theorem ill_typed_message_is_dropped :
  (∀ addr a0 rest st,
     isArgString a0 = false →
     handleBonePos (mkMessage addr (a0 :: rest)) st = Returned st ∧
     handleBlendVal (mkMessage addr (a0 :: rest)) st = Returned st) ∧
  (∀ addr rawKey args st,
     forallb isArgFloat32 args = false →
     handleBonePos (mkMessage addr (ArgString rawKey :: args)) st
     = Returned st) ∧
  (∀ addr key a1 rest st,
     isArgFloat32 a1 = false →
     handleBlendVal (mkMessage addr (ArgString key :: a1 :: rest)) st
     = Returned st).
Proof.
  split; [| split].
  - intros addr a0 rest st Ha. by destruct a0.
  - intros addr rawKey args st. apply handleBonePos_ill_typed.
  - intros addr key a1 rest st Ha. by destruct a1.
Qed.

Lemma marshalFloat32_Ok (f : float32) (j : json) :
  marshalFloat32 f = Ok j → isFinite f = true.
Proof.
  unfold marshalFloat32, isFinite. by destruct (isNaN f || isInf f).
Qed.

Lemma marshalFloat32_not_finite (f : float32) :
  isFinite f = false → marshalFloat32 f = Err "json: unsupported value".
Proof.
  unfold marshalFloat32, isFinite. by destruct (isNaN f || isInf f).
Qed.

Ltac marshal_case f :=
  destruct (isFinite f) eqn:?;
  [ rewrite (marshalFloat32_finite f) by done; cbn [mbind result_bind]
  | rewrite (marshalFloat32_not_finite f) by done; cbn [mbind result_bind] ].

(** [json.Marshal] of the bone of a message succeeds exactly when its seven
    coordinates are finite. *)
Lemma marshalBone_boneOf (v0 v1 v2 v3 v4 v5 v6 : float32) :
  match marshalBone (boneOf v0 v1 v2 v3 v4 v5 v6) with
  | Ok _ => forallb isFinite [v0; v1; v2; v3; v4; v5; v6] = true
  | Err _ => forallb isFinite [v0; v1; v2; v3; v4; v5; v6] = false
  end.
Proof.
  unfold marshalBone, marshalPosition, marshalRotation, marshalQuaternion,
    marshalSpherical, boneOf.
  cbn [Position Rotation Quaternion Spherical pos_X pos_Y pos_Z
       quat_X quat_Y quat_Z quat_W AzimuthAngle PolarAngle forallb].
  marshal_case v0; [|done]. marshal_case v1; [|done].
  marshal_case v2; [|done]. marshal_case v3; [|done].
  marshal_case v4; [|done]. marshal_case v5; [|done].
  marshal_case v6; [|done]. done.
Qed.

Lemma boneOK_boneOf (v0 v1 v2 v3 v4 v5 v6 : float32) :
  forallb isFinite [v0; v1; v2; v3; v4; v5; v6] = true →
  boneOK (boneOf v0 v1 v2 v3 v4 v5 v6).
Proof.
  intros H. split; [|done]. cbn.
  cbn in H. repeat (apply andb_true_iff in H as [? H]).
  repeat constructor; done.
Qed.

(** X3. A bone message with a coordinate that is not finite (a NaN or an
    infinity) is dropped: [json.Marshal] refuses it, the handler returns and
    [liveVRM] is as it was. *)
Theorem non_finite_bone_is_dropped (addr rawKey : string)
    (v0 v1 v2 v3 v4 v5 v6 : float32) (more : list float32) (st : vrmType) :
  forallb isFinite [v0; v1; v2; v3; v4; v5; v6] = false →
  handleBonePos
    (mkMessage addr
       (ArgString rawKey ::
        (ArgFloat32 <$> v0 :: v1 :: v2 :: v3 :: v4 :: v5 :: v6 :: more)))
    st
  = Returned st.
Proof.
  intros Hfin. rewrite handleBonePos_floats.
  pose proof (marshalBone_boneOf v0 v1 v2 v3 v4 v5 v6) as H.
  destruct (marshalBone (boneOf v0 v1 v2 v3 v4 v5 v6)); [congruence | done].
Qed.

(** X4. Arguments beyond the expected ones do not count: a blend message
    is handled as its first two arguments, and a bone message with more
    than seven [float32] coordinates as its first seven; but one argument
    after them that is not a [float32] makes the bone handler drop the
    whole message. *)
Theorem surplus_arguments_are_ignored :
  (∀ addr key v rest st,
     handleBlendVal (mkMessage addr (ArgString key :: ArgFloat32 v :: rest)) st
     = handleBlendVal (mkMessage addr [ArgString key; ArgFloat32 v]) st) ∧
  (∀ addr rawKey v0 v1 v2 v3 v4 v5 v6 more st,
     handleBonePos
       (mkMessage addr
          (ArgString rawKey ::
           (ArgFloat32 <$> v0 :: v1 :: v2 :: v3 :: v4 :: v5 :: v6 :: more)))
       st
     = handleBonePos
         (mkMessage addr
            (ArgString rawKey ::
             (ArgFloat32 <$> [v0; v1; v2; v3; v4; v5; v6])))
         st) ∧
  (∀ addr rawKey fs a more st,
     isArgFloat32 a = false →
     handleBonePos
       (mkMessage addr
          (ArgString rawKey :: (ArgFloat32 <$> fs) ++ a :: more))
       st
     = Returned st).
Proof.
  split; [| split].
  - intros. by rewrite !handleBlendVal_wellformed.
  - intros. by rewrite !handleBonePos_floats.
  - intros addr rawKey fs a more st Ha. apply handleBonePos_ill_typed.
    rewrite forallb_app. cbn. rewrite Ha. by rewrite andb_false_r.
Qed.

(** ** The handlers as deltas *)

(** What a handler call does is a delta that the message alone fixes. *)
Lemma handle_delta (call : handlerCall) :
  ∃ d, deltaFor call d ∧ ∀ st, handle call st = applyDelta d st.
Proof.
  destruct call as [[addr args]|[addr args]]; cbn [handle].
  - destruct args as [|a0 args]; [by exists DeltaPanic |].
    destruct a0 as [| |key| | | | | |]; try by exists DeltaNone.
    destruct args as [|a1 rest]; [by exists DeltaPanic |].
    destruct a1 as [|v| | | | | | |]; try by exists DeltaNone.
    destruct (isNaN v) eqn:Hnan.
    { exists DeltaNone. split; [done |]. intros st.
      by rewrite handleBlendVal_wellformed, Hnan. }
    destruct (fieldIndex faceTags key) as [i|] eqn:Hi.
    + exists (DeltaShape i (spec_clamp v)). split.
      * split; [by cbn; rewrite Hi |].
        split; [by apply fieldIndex_lt in Hi | by apply spec_clamp_inUnit].
      * intros st. by rewrite handleBlendVal_wellformed, Hnan, Hi.
    + exists DeltaNone. split; [done |]. intros st.
      by rewrite handleBlendVal_wellformed, Hnan, Hi.
  - destruct args as [|a0 args]; [by exists DeltaPanic |].
    destruct a0 as [| |rawKey| | | | | |]; try by exists DeltaNone.
    destruct (forallb isArgFloat32 args) eqn:Hargs.
    2: { exists DeltaNone. split; [done |]. intros st.
         by apply handleBonePos_ill_typed. }
    rewrite (forallb_floats args Hargs).
    destruct (coordsOf args) as [|v0 [|v1 [|v2 [|v3 [|v4 [|v5 [|v6 more]]]]]]];
      try (exists DeltaPanic; split; [done |]; intros st;
           by rewrite handleBonePos_floats).
    pose proof (marshalBone_boneOf v0 v1 v2 v3 v4 v5 v6) as Hm.
    destruct (marshalBone (boneOf v0 v1 v2 v3 v4 v5 v6)) as [j|e] eqn:Hj.
    2: { exists DeltaNone. split; [done |]. intros st.
         by rewrite handleBonePos_floats, Hj. }
    destruct (fieldIndex boneTags (snakeCase rawKey)) as [i|] eqn:Hi.
    + exists (DeltaBone i (boneOf v0 v1 v2 v3 v4 v5 v6)). split.
      * split; [by cbn; rewrite Hi |].
        split; [by apply fieldIndex_lt in Hi | by apply boneOK_boneOf].
      * intros st. by rewrite handleBonePos_floats, Hj, Hi.
    + exists DeltaNone. split; [done |]. intros st.
      by rewrite handleBonePos_floats, Hj, Hi.
Qed.

(** X5. The decoder is a function of the message: whether a handler call
    panics, does nothing, or stores one face value or one bone, and which
    one, is fixed by the message and never depends on [liveVRM]. *)
Theorem handler_effect_is_fixed_by_message (call : handlerCall) :
  ∃ d, ∀ st, handle call st = applyDelta d st.
Proof. destruct (handle_delta call) as (d & _ & Hd). by exists d. Qed.

Lemma applyDelta_poseOK (call : handlerCall) (d : delta) (st st' : vrmType) :
  deltaFor call d → poseOK st → applyDelta d st = Returned st' → poseOK st'.
Proof.
  intros Hd ([Hb Hf] & Hbones & Hface & Hdyn).
  destruct d as [| |i x|i b]; cbn; try done.
  - by intros [= <-].
  - destruct Hd as (_ & _ & Hx). intros [= <-].
    split; [split; cbn; by rewrite ?length_insert |].
    split; [done |]. split; [|done]. cbn. by apply Forall_insert.
  - destruct Hd as (_ & _ & Hbone). intros [= <-].
    split; [split; cbn; by rewrite ?length_insert |].
    split; [|done]. cbn. by apply Forall_insert.
Qed.

Lemma poseOK_init : poseOK liveVRM_init.
Proof.
  split; [exact wf_vrm_init |].
  split; [| split; [exact liveVRM_init_inUnit | done]].
  unfold liveVRM_init. cbn [Bones]. apply Forall_replicate.
  split; [repeat constructor | done].
Qed.

(** X6. Whatever messages the handlers are called with, if they return,
    [liveVRM] keeps its shape, every coordinate of every bone is finite,
    every bone's spherical rotation is zero, every face value lies in
    [0,1], and the dynamic blend shapes are never written. *)
Theorem pose_invariant (calls : list handlerCall) (st : vrmType) :
  run calls liveVRM_init = Returned st → poseOK st.
Proof.
  assert (∀ st0, poseOK st0 → run calls st0 = Returned st → poseOK st) as H.
  { induction calls as [|call rest IH]; intros st0 Hok; cbn [run].
    - by intros [= <-].
    - destruct (handle_delta call) as (d & Hd & Heq). rewrite Heq.
      destruct (applyDelta d st0) as [st1| |] eqn:Hst1; [|done|done].
      cbn [mbind outcome_bind]. apply IH.
      by apply (applyDelta_poseOK call d st0). }
  apply H, poseOK_init.
Qed.

Lemma withFace_withBones (st : vrmType) (bones : list vrmBone)
    (face : list float32) :
  withFace (withBones st bones) face = withBones (withFace st face) bones.
Proof. done. Qed.

Lemma applyDelta_commute (d1 d2 : delta) (st : vrmType) :
  match d1, d2 with
  | DeltaShape i _, DeltaShape j _ => i ≠ j
  | DeltaBone i _, DeltaBone j _ => i ≠ j
  | _, _ => True
  end →
  (st1 ← applyDelta d1 st; applyDelta d2 st1)
  = (st2 ← applyDelta d2 st; applyDelta d1 st2).
Proof.
  destruct d1 as [| |i x|i b], d2 as [| |j y|j c];
    cbn; try done; intros Hne; f_equal.
  - unfold withFace.
    cbn [Bones BlendShapes FaceBlendShapes DynamicBlendShapes].
    by rewrite list_insert_insert_ne.
  - unfold withBones. cbn [Bones BlendShapes].
    by rewrite list_insert_insert_ne.
Qed.

(** X7. Two handler calls that name different fields commute: the two
    orders end in the same [liveVRM], or both panic. *)
Theorem deltas_on_different_fields_commute (c1 c2 : handlerCall)
    (st : vrmType) :
  touches c1 ≠ touches c2 →
  run [c1; c2] st = run [c2; c1] st.
Proof.
  intros Hne. cbn [run].
  destruct (handle_delta c1) as (d1 & Hd1 & H1).
  destruct (handle_delta c2) as (d2 & Hd2 & H2).
  assert (∀ s, (s' ← handle c1 s; Returned s') = applyDelta d1 s ∧
               (s' ← handle c2 s; Returned s') = applyDelta d2 s) as Hs.
  { intros s. rewrite H1, H2. by destruct (applyDelta d1 s), (applyDelta d2 s). }
  transitivity (st1 ← applyDelta d1 st; applyDelta d2 st1).
  { rewrite H1. destruct (applyDelta d1 st) as [s| |]; cbn; [|done|done].
    rewrite <- (proj2 (Hs s)). by destruct (handle c2 s). }
  transitivity (st2 ← applyDelta d2 st; applyDelta d1 st2).
  { apply applyDelta_commute.
    destruct d1 as [| |i x|i b], d2 as [| |j y|j c]; try done.
    - destruct Hd1 as (T1 & _), Hd2 as (T2 & _). congruence.
    - destruct Hd1 as (T1 & _), Hd2 as (T2 & _). congruence. }
  rewrite H2. destruct (applyDelta d2 st) as [s| |]; cbn; [|done|done].
  rewrite <- (proj1 (Hs s)). by destruct (handle c1 s).
Qed.

(** X8. Last write wins, and no history is kept: after two blend messages
    (or two bone messages) that select the same field, the second of them
    a number (with finite coordinates), [liveVRM] is what the second
    message alone would have left. *)
Theorem last_delta_wins (st : vrmType) :
  (∀ addr1 addr2 key1 key2 v1 v2 i,
     fieldIndex faceTags key1 = Some i → fieldIndex faceTags key2 = Some i →
     isNaN v2 = false →
     run [BlendVal (mkMessage addr1 [ArgString key1; ArgFloat32 v1]);
          BlendVal (mkMessage addr2 [ArgString key2; ArgFloat32 v2])] st
     = run [BlendVal (mkMessage addr2 [ArgString key2; ArgFloat32 v2])] st) ∧
  (∀ addr1 addr2 key1 key2 (fs1 : list float32) v0 v1 v2 v3 v4 v5 v6 i,
     fieldIndex boneTags (snakeCase key1) = Some i →
     fieldIndex boneTags (snakeCase key2) = Some i →
     (7 ≤ List.length fs1)%nat →
     forallb isFinite [v0; v1; v2; v3; v4; v5; v6] = true →
     run [BonePos (mkMessage addr1 (ArgString key1 :: (ArgFloat32 <$> fs1)));
          BonePos (mkMessage addr2
                     (ArgString key2 ::
                      (ArgFloat32 <$> [v0; v1; v2; v3; v4; v5; v6])))] st
     = run [BonePos (mkMessage addr2
                       (ArgString key2 ::
                        (ArgFloat32 <$> [v0; v1; v2; v3; v4; v5; v6])))] st).
Proof.
  split.
  - intros addr1 addr2 key1 key2 v1 v2 i H1 H2 Hv2. cbn [run handle].
    rewrite !handleBlendVal_wellformed, H1, H2, Hv2.
    destruct (isNaN v1); cbn [mbind outcome_bind].
    + by rewrite handleBlendVal_wellformed, H2, Hv2.
    + rewrite handleBlendVal_wellformed, H2, Hv2. do 2 f_equal.
      unfold withFace.
      cbn [Bones BlendShapes FaceBlendShapes DynamicBlendShapes].
      by rewrite list_insert_insert_eq.
  - intros addr1 addr2 key1 key2 fs1 v0 v1 v2 v3 v4 v5 v6 i H1 H2 Hlen Hfin.
    pose proof (marshalBone_boneOf v0 v1 v2 v3 v4 v5 v6) as Hm.
    destruct (marshalBone (boneOf v0 v1 v2 v3 v4 v5 v6)) as [j|] eqn:Hj;
      [|congruence].
    cbn [run handle]. rewrite !handleBonePos_floats, H1, H2, Hj.
    destruct fs1 as [|w0 [|w1 [|w2 [|w3 [|w4 [|w5 [|w6 more]]]]]]];
      try (cbn in Hlen; lia).
    cbn [mbind outcome_bind].
    rewrite handleBonePos_floats, H2, Hj.
    destruct (marshalBone (boneOf w0 w1 w2 w3 w4 w5 w6));
      cbn [mbind outcome_bind]; [|done].
    do 2 f_equal. unfold withBones. cbn [Bones BlendShapes].
    by rewrite list_insert_insert_eq.
Qed.

(** ** Sessions of [listen] *)

Lemma listen_loop_frames (id : string)
    (frames : list (json * list (string * websocketClient)))
    (tail : list (wsRead * list (string * websocketClient)))
    (q : websocketPool) :
  poolWF q →
  Forall (λ fo, (ReadJSON (ReadFrame fo.1) zeroCamera).2 = false ∧
                fo.2 ≡ₚ map_to_list (Clients q)) frames →
  ∃ h',
    listen_loop id (((λ fo, (ReadFrame fo.1, fo.2)) <$> frames) ++ tail) q
    = listen_loop id tail (mkPool (Clients q) [] h') ∧
    poolWF (mkPool (Clients q) [] h') ∧
    (∀ i cl c st,
       Clients q !! i = Some cl → Channel cl = Some c →
       heap q !! c = Some st →
       h' !! c = Some (mkChan (sent st ++ (sentFor ∘ fst <$> frames))
                              (closed st))) ∧
    (∀ c,
       (∀ i cl, Clients q !! i = Some cl → Channel cl ≠ Some c) →
       h' !! c = heap q !! c).
Proof.
  revert q. induction frames as [|[j order] frames IH]; intros q Hwf Hframes.
  - exists (heap q). destruct q as [cls bc h].
    pose proof (proj1 Hwf) as Hidle. cbn in Hidle. subst bc.
    split; [done |]. split; [done |]. split; [|done].
    intros i cl c [s b] _ _ Hc. cbn [fmap list_fmap sent closed heap] in *.
    by rewrite app_nil_r.
  - apply Forall_cons in Hframes as [[Herr Hperm] Hframes].
    cbn [fst snd] in Herr, Hperm.
    destruct (update_spec q order (sentFor j) Hwf Hperm)
      as (h1 & Hrun & Hsent & Hother & _).
    assert (poolWF (mkPool (Clients q) [] h1)) as Hwf1
      by (by eapply update_wf).
    destruct (IH (mkPool (Clients q) [] h1) Hwf1 Hframes)
      as (h' & Hloop & Hwf' & Hsent' & Hother').
    exists h'. split; [| split; [exact Hwf' | split]].
    + cbn [fmap list_fmap app listen_loop fst snd].
      unfold sentFor in Hrun.
      destruct (ReadJSON (ReadFrame j) zeroCamera) as [camera err].
      cbn [fst snd] in Herr, Hrun. subst err.
      rewrite Hrun. cbn [mbind outcome_bind]. exact Hloop.
    + intros i cl c st Hcl Hch Hc.
      rewrite (Hsent' i cl c _ Hcl Hch (Hsent i cl c st Hcl Hch Hc)).
      cbn [sent closed fmap list_fmap compose fst].
      by rewrite <- app_assoc.
    + intros c Hc. rewrite (Hother' c Hc). by apply Hother.
Qed.

(** X9. A whole session of [listen] on a pool where [id] is free: the
    frames are sent in the order they were read, each decoded into a zero
    camera (what a frame omits is zero, whatever was sent before); every
    other client receives exactly these cameras, in this order, and so does
    the session's own channel; at the first read that fails (or frame that
    does not decode) the channel is closed and the registry is what it was
    before the session. *)
Theorem listen_session (p : websocketPool) (id : string)
    (frames : list (json * list (string * websocketClient)))
    (failed : wsRead) (last : list (string * websocketClient))
    (rest : list (wsRead * list (string * websocketClient))) :
  poolWF p →
  Clients p !! id = None →
  Forall (λ fo, (ReadJSON (ReadFrame fo.1) zeroCamera).2 = false ∧
                fo.2 ≡ₚ map_to_list (Clients (add id p))) frames →
  (ReadJSON failed zeroCamera).2 = true →
  ∃ p',
    listen id (((λ fo, (ReadFrame fo.1, fo.2)) <$> frames)
               ++ (failed, last) :: rest) p
    = Returned (p', true) ∧
    poolWF p' ∧ Clients p' = Clients p ∧
    (∀ i cl c,
       Clients p !! i = Some cl → Channel cl = Some c →
       delivered p' c = delivered p c ++ (sentFor ∘ fst <$> frames)) ∧
    heap p' !! List.length (heap p)
    = Some (mkChan (sentFor ∘ fst <$> frames) true).
Proof.
  intros Hwf Hfree Hframes Hfailed.
  pose proof (add_wf id p Hwf) as Hwf1.
  destruct (listen_loop_frames id frames ((failed, last) :: rest)
              (add id p) Hwf1 Hframes)
    as (h' & Hloop & Hwf' & Hsent & Hother).
  set (c0 := List.length (heap p)).
  assert (Clients (add id p) !! id = Some (mkClient id (Some c0))) as Hown.
  { unfold add, makeChan. cbn [Clients]. apply lookup_insert_eq. }
  assert (heap (add id p) !! c0 = Some (mkChan [] false)) as Hc0.
  { unfold add, makeChan. cbn [heap].
    by rewrite lookup_app_r, Nat.sub_diag by (unfold c0; lia). }
  destruct (remove_spec _ id _ c0 Hwf' Hown eq_refl)
    as (st & Hst & Hrem & Hwf2 & _).
  cbn [heap Clients BroadcastChannel] in Hst, Hrem, Hwf2.
  rewrite (Hsent id _ c0 _ Hown eq_refl Hc0) in Hst.
  injection Hst as <-. cbn [sent app] in Hrem, Hwf2.
  assert (delete id (Clients (add id p)) = Clients p) as Hdel.
  { unfold add, makeChan. cbn [Clients]. by apply delete_insert_id. }
  rewrite Hdel in Hrem, Hwf2.
  eexists. split; [| split; [exact Hwf2 | split; [done | split]]].
  - unfold listen. rewrite Hloop. cbn [listen_loop].
    destruct (ReadJSON failed zeroCamera) as [camera err].
    cbn [snd] in Hfailed. subst err. rewrite Hrem. done.
  - intros i cl c Hcl Hch. unfold delivered. cbn [heap].
    destruct Hwf as (_ & Hopen & _).
    destruct (Hopen i cl Hcl) as (c' & st & Hch' & Hc & _).
    assert (c' = c) as -> by congruence.
    pose proof (lookup_lt_Some _ _ _ Hc) as Hlt.
    rewrite list_lookup_insert_ne by (unfold c0; lia).
    assert (i ≠ id) as Hne by (intros ->; congruence).
    rewrite (Hsent i cl c st); [by rewrite Hc | | done |].
    + unfold add, makeChan. cbn [Clients]. by rewrite lookup_insert_ne.
    + unfold add, makeChan. cbn [heap]. by rewrite lookup_app_l.
  - cbn [heap]. apply list_lookup_insert_eq.
    eapply lookup_lt_Some. exact (Hsent id _ c0 _ Hown eq_refl Hc0).
Qed.


(** ** The routes over several requests *)

Lemma Scene_eta (scene : Scene) : mkScene (Camera scene) = scene.
Proof. by destruct scene. Qed.

(** X11. The loop of [/live/write/camera] over a connection: updates
    accumulate in the canonical camera (each is laid over what the ones
    before left), the camera is published after every update as it stands
    then, and the first failed read ends the loop: nothing read after it
    has any effect. *)
Theorem camera_updates_accumulate (us : list cameraUpdate)
    (rest : list wsRead) (scene : Scene) :
  writeCamera ((ReadFrame ∘ renderCamera <$> us) ++ ReadFailed :: rest) scene
  = (mkScene (foldl (λ c u, mergeCamera u c) (Camera scene) us),
     PoolUpdate <$> mergeAll us (Camera scene)) ∧
  writeCamera (ReadFrame ∘ renderCamera <$> us) scene
  = (mkScene (foldl (λ c u, mergeCamera u c) (Camera scene) us),
     PoolUpdate <$> mergeAll us (Camera scene)).
Proof.
  revert scene. induction us as [|u us IH]; intros scene.
  - cbn. by rewrite Scene_eta.
  - cbn [fmap list_fmap app writeCamera compose foldl mergeAll].
    rewrite ReadJSON_render.
    destruct (IH (mkScene (mergeCamera u (Camera scene)))) as [-> ->].
    done.
Qed.

(** X12. A frame with a member of the wrong type is an error of
    [ws.ReadJSON], but not before the rest of the frame is decoded: the
    loop of [/live/write/camera] ends with the other members stored in the
    canonical camera, and this camera is never published. *)
Theorem ill_typed_frame_is_stored_unpublished (bad : json)
    (u : positionUpdate) (rest : list wsRead) (scene : Scene) :
  notAStruct bad = true →
  writeCamera
    (ReadFrame (JObject [("target", bad); ("position", renderPosition u)])
     :: rest) scene
  = (mkScene (mkCamera (mergePosition (Some u) (cam_Position (Camera scene)))
                       (cam_Target (Camera scene))),
     []).
Proof.
  intros Hbad. destruct scene as [[[px py pz] [tx ty tz]]].
  destruct u as [[x|] [y|] [z|]];
    destruct bad; try discriminate Hbad; vm_compute; reflexivity.
Qed.

Lemma receiverUpdate_cases (receiverMap : gmap string receiverPtr)
    (body : result string) (st : routerState) :
  receiverUpdate receiverMap body st = (st, []) ∨
  ∃ name r,
    body = Ok name ∧ receiverMap !! name = Some (Some r) ∧
    receiverUpdate receiverMap body st
    = (mkRouter name (Some r),
       [CallStop (activeReceiver st); CallStart (Some r)]).
Proof.
  destruct body as [name|e]; [|by left]. unfold receiverUpdate, receiverAt.
  destruct (receiverMap !! name) as [[r|]|] eqn:Hname; [|by left|by left].
  right. by exists name, r.
Qed.

(** X13. Over any sequence of requests to [/api/receiver/update], from the
    state [New] sets up: the active receiver is always the one registered
    under the active name; the calls hand the receivers over (each [Stop]
    goes to the receiver started last, or to the configured one, and is
    followed by one [Start], of the receiver that is active then); and if
    the configured receiver exists, no call is ever made on a nil
    receiver. *)
Theorem receivers_are_handed_over (receiverMap : gmap string receiverPtr)
    (configured : string) (bodies : list (result string)) :
  let st0 := New_router receiverMap configured in
  let st' := (receiverRun receiverMap bodies st0).1 in
  let calls := (receiverRun receiverMap bodies st0).2 in
  activeReceiver st' = receiverAt receiverMap (Receiver st') ∧
  handover (activeReceiver st0) calls = Some (activeReceiver st') ∧
  (activeReceiver st0 ≠ None →
   activeReceiver st' ≠ None ∧ Forall (λ e, onNil e = false) calls) ∧
  (activeReceiver st0 = None →
   ∀ (name : string) (r : nat), receiverMap !! name = Some (Some r) →
     (receiverUpdate receiverMap (Ok name) st0).2
     = [CallStop None; CallStart (Some r)]).
Proof.
  cbn zeta.
  assert (∀ st,
            activeReceiver st = receiverAt receiverMap (Receiver st) →
            let st' := (receiverRun receiverMap bodies st).1 in
            let calls := (receiverRun receiverMap bodies st).2 in
            activeReceiver st' = receiverAt receiverMap (Receiver st') ∧
            handover (activeReceiver st) calls = Some (activeReceiver st') ∧
            (activeReceiver st ≠ None →
             activeReceiver st' ≠ None ∧
             Forall (λ e, onNil e = false) calls)) as H.
  { induction bodies as [|body bodies IH]; intros st Hinv; cbn zeta.
    - cbn. split; [done |]. split; [done |]. intros Hst. by split.
    - cbn [receiverRun].
      destruct (receiverUpdate_cases receiverMap body st)
        as [-> | (name & r & -> & Hname & ->)].
      + specialize (IH st Hinv). cbn zeta in IH.
        destruct (receiverRun receiverMap bodies st) as [st2 calls2].
        exact IH.
      + assert (activeReceiver (mkRouter name (Some r))
                = receiverAt receiverMap (Receiver (mkRouter name (Some r))))
          as Hinv1 by (unfold receiverAt; cbn; by rewrite Hname).
        specialize (IH _ Hinv1). cbn zeta in IH.
        destruct (receiverRun receiverMap bodies (mkRouter name (Some r)))
          as [st2 calls2].
        cbn [fst snd activeReceiver app handover] in *.
        destruct IH as (Hinv2 & Hhand & Hnil).
        split; [done |]. split; [by rewrite decide_True |].
        intros Hst. destruct (Hnil ltac:(done)) as [Hst2 Hcalls].
        split; [done |].
        repeat constructor; [| done].
        by destruct (activeReceiver st). }
  specialize (H (New_router receiverMap configured) eq_refl).
  cbn zeta in H. destruct H as (Hinv & Hhand & Hnil).
  split; [done |]. split; [done |]. split; [done |].
  intros Hst name r Hname. unfold receiverUpdate, receiverAt.
  rewrite Hname. cbn [default]. by rewrite Hst.
Qed.

(** X14. [/api/receiver] reports every name of [receiverMap] as available,
    each once.  Every name [/api/receiver/update] accepts is among them; a
    name among them is refused exactly when its receiver is nil. *)
Theorem accepted_receivers_are_listed (receiverMap : gmap string receiverPtr)
    (order : list (string * receiverPtr)) (name : string) (st : routerState) :
  order ≡ₚ map_to_list receiverMap →
  NoDup (receiverNames order) ∧
  ((receiverUpdate receiverMap (Ok name) st).2 ≠ [] →
   name ∈ receiverNames order) ∧
  (name ∈ receiverNames order →
   (receiverUpdate receiverMap (Ok name) st = (st, [])
    ↔ receiverMap !! name = Some None)).
Proof.
  intros Hperm. unfold receiverNames, receiverUpdate, receiverAt.
  unfold receiverPtr in *.
  assert (name ∈ order.*1 ↔ is_Some (receiverMap !! name)) as Hin.
  { rewrite Hperm, list_elem_of_fmap. split.
    - intros ([n r] & -> & Hx%elem_of_map_to_list). by exists r.
    - intros [r Hr]. exists (name, r). split; [done |].
      by apply elem_of_map_to_list. }
  split; [rewrite Hperm; apply NoDup_fst_map_to_list |].
  split.
  - intros Hcalls. apply Hin.
    destruct (receiverMap !! name) as [r|]; [by exists r | by cbn in Hcalls].
  - intros [r Hr]%Hin. rewrite Hr. cbn [default].
    destruct r as [r|]; [| done].
    split; [intros [= ? ?] | intros [= ?]].
Qed.

(** ** Keys and the fields they select *)

Lemma imap_lookup_all {A B : Type} (f : A → B) (g : nat → B) (l : list A) :
  f <$> l = g <$> seq 0 (List.length l) →
  ∀ i x, l !! i = Some x → f x = g i.
Proof.
  intros H i x Hx.
  assert ((f <$> l) !! i = Some (f x)) as H1
    by (by rewrite list_lookup_fmap, Hx).
  rewrite H, list_lookup_fmap in H1.
  rewrite (lookup_seq_lt 0 (List.length l) i) in H1
    by (by apply lookup_lt_Some in Hx).
  by injection H1.
Qed.

(** X15. The declarations of [vrmBones] and [camelToSnake] agree: the
    name of each of the 56 bone fields, which is the name VMC sends for the
    bone, is taken by [camelToSnake] to a key that selects this very field,
    and so is the field's own JSON tag; each of the 52 face names selects
    its own field as it stands. *)
Theorem vocabulary_selects_its_fields :
  (∀ i name, boneFieldNames !! i = Some name →
     fieldIndex boneTags (snakeCase name) = Some i) ∧
  (∀ i tag, boneTags !! i = Some tag →
     fieldIndex boneTags (snakeCase tag) = Some i) ∧
  (∀ i name, faceTags !! i = Some name →
     fieldIndex faceTags name = Some i).
Proof.
  split; [| split].
  - apply (imap_lookup_all (λ name, fieldIndex boneTags (snakeCase name)) Some).
    vm_compute. reflexivity.
  - apply (imap_lookup_all (λ tag, fieldIndex boneTags (snakeCase tag)) Some).
    vm_compute. reflexivity.
  - apply (imap_lookup_all (λ name, fieldIndex faceTags name) Some).
    vm_compute. reflexivity.
Qed.

Lemma findIndex_None (f : string → bool) (tags : list string) :
  findIndex f tags = None → ∀ t, t ∈ tags → f t = false.
Proof.
  induction tags as [|t0 rest IH]; intros H t Ht; [by apply elem_of_nil in Ht |].
  cbn in H. destruct (f t0) eqn:Hf; [done |].
  destruct (findIndex f rest) eqn:Hrest; [done |].
  apply elem_of_cons in Ht as [-> | Ht]; [done | by apply IH].
Qed.

(** With field names that stay distinct without case, an ASCII key selects
    the field whose name it is without case: the exact match that
    encoding/json tries first changes nothing. *)
Lemma fieldIndex_fold (tags : list string) (key : string) :
  NoDup (mapBytes lowerByte <$> tags) →
  isASCII key = true →
  fieldIndex tags key
  = findIndex (λ t, String.eqb (mapBytes lowerByte t) (mapBytes lowerByte key))
      tags.
Proof.
  intros Hnd Hascii. unfold fieldIndex, equalFold. rewrite Hascii.
  induction tags as [|t rest IH]; [done |].
  apply NoDup_cons in Hnd as [Hnotin Hnd]. specialize (IH Hnd).
  cbn [findIndex].
  destruct (String.eqb t key) eqn:Hexact.
  { apply String.eqb_eq in Hexact as ->. by rewrite String.eqb_refl. }
  destruct (String.eqb (mapBytes lowerByte t) (mapBytes lowerByte key))
    eqn:Hfold.
  - destruct (findIndex (λ t0, String.eqb t0 key) rest) as [j|] eqn:Hj; [|done].
    apply findIndex_Some in Hj as (t' & Ht' & ->%String.eqb_eq).
    apply String.eqb_eq in Hfold. exfalso. apply Hnotin.
    rewrite Hfold. apply list_elem_of_fmap. exists key.
    split; [done |]. by eapply list_elem_of_lookup_2.
  - rewrite <- IH.
    by destruct (findIndex (λ t0, String.eqb t0 key) rest).
Qed.

Lemma NoDup_lower_faceTags : NoDup (mapBytes lowerByte <$> faceTags).
Proof. apply (bool_decide_unpack _). vm_compute. exact I. Qed.

Lemma NoDup_lower_boneTags : NoDup (mapBytes lowerByte <$> boneTags).
Proof. apply (bool_decide_unpack _). vm_compute. exact I. Qed.

(** X16. Field selection ignores the case of ASCII letters: two ASCII keys
    that are equal without case select the same face field, and the same
    bone field. *)
Theorem keys_select_without_case (k1 k2 : string) :
  isASCII k1 = true → isASCII k2 = true →
  mapBytes lowerByte k1 = mapBytes lowerByte k2 →
  fieldIndex faceTags k1 = fieldIndex faceTags k2 ∧
  fieldIndex boneTags k1 = fieldIndex boneTags k2.
Proof.
  intros H1 H2 Heq.
  rewrite !(fieldIndex_fold faceTags) by (done || apply NoDup_lower_faceTags).
  rewrite !(fieldIndex_fold boneTags) by (done || apply NoDup_lower_boneTags).
  by rewrite Heq.
Qed.

(** *** [normalizeVMCKey] and [camelToSnake] on ASCII keys *)

Lemma spec_normalizeKey_normal (k : string) :
  isASCII k = true →
  isASCII (spec_normalizeKey k) = true ∧
  noUpper (spec_normalizeKey k) = true ∧
  stripSuffix "_l" (spec_normalizeKey k) = None ∧
  stripSuffix "_r" (spec_normalizeKey k) = None.
Proof.
  intros Hk. unfold spec_normalizeKey, strings_ToLower.
  rewrite isASCII_separate, Hk.
  set (x := mapBytes lowerByte (spec_separate None k)).
  assert (isASCII x = true) as Hx by
    (unfold x; by rewrite isASCII_lower, isASCII_separate).
  assert (noUpper x = true) as Hlow by apply noUpper_lower.
  unfold spec_expandEnding.
  destruct (stripSuffix "_l" x) as [p|] eqn:Hl;
    [| destruct (stripSuffix "_r" x) as [p|] eqn:Hr].
  - apply stripSuffix_Some in Hl. rewrite Hl in Hx, Hlow.
    rewrite isASCII_append in Hx. rewrite noUpper_append in Hlow.
    apply andb_true_iff in Hx as [Hx _], Hlow as [Hlow _].
    split; [by rewrite isASCII_append, Hx |].
    split; [by rewrite noUpper_append, Hlow |]. split.
    + change "_left" with ("_le" +:+ "ft"). rewrite <- append_assoc.
      by apply stripSuffix_other.
    + apply stripSuffix_left_not_r.
  - apply stripSuffix_Some in Hr. rewrite Hr in Hx, Hlow.
    rewrite isASCII_append in Hx. rewrite noUpper_append in Hlow.
    apply andb_true_iff in Hx as [Hx _], Hlow as [Hlow _].
    split; [by rewrite isASCII_append, Hx |].
    split; [by rewrite noUpper_append, Hlow |]. split.
    + change "_right" with ("_rig" +:+ "ht"). rewrite <- append_assoc.
      by apply stripSuffix_other.
    + change "_right" with ("_rig" +:+ "ht"). rewrite <- append_assoc.
      by apply stripSuffix_other.
  - done.
Qed.

(** X17. On an ASCII key [normalizeVMCKey] returns a key in normal form:
    ASCII, without upper-case letters, ending neither in [_l] nor in [_r];
    and it returns every key of this form as it is. *)
Theorem normalizeVMCKey_normal_form (k : string) :
  isASCII k = true →
  ∃ k1,
    normalizeVMCKey k = Ok k1 ∧
    isASCII k1 = true ∧ noUpper k1 = true ∧
    stripSuffix "_l" k1 = None ∧ stripSuffix "_r" k1 = None ∧
    ∀ y, isASCII y = true → noUpper y = true →
         stripSuffix "_l" y = None → stripSuffix "_r" y = None →
         normalizeVMCKey y = Ok y.
Proof.
  intros Hk. exists (spec_normalizeKey k).
  split; [apply normalizeVMCKey_refines |].
  destruct (spec_normalizeKey_normal k Hk) as (? & ? & ? & ?).
  do 4 (split; [done |]).
  intros y ? ? ? ?. rewrite normalizeVMCKey_refines.
  by rewrite spec_normalizeKey_fixed.
Qed.

Lemma replaceAlnumUpper_eq (a : ascii) (r : string) :
  replaceAlnumUpper (String a r)
  = match r with
    | String b t =>
        if (isLower a || isDigit a) && isUpper b
        then String a (String "_" (String b (replaceAlnumUpper t)))
        else String a (replaceAlnumUpper r)
    | EmptyString => String a EmptyString
    end.
Proof. reflexivity. Qed.

Lemma replaceFirstCap_eq (run : bool) (a : ascii) (r : string) :
  replaceFirstCap run (String a r)
  = if run && isLower a then String a (replaceFirstCap true r)
    else
      match r with
      | String b (String c t) =>
          if isDot a && isUpper b && isLower c
          then String a (String "_" (String b (String c (replaceFirstCap true t))))
          else String a (replaceFirstCap false r)
      | _ => String a (replaceFirstCap false r)
      end.
Proof. reflexivity. Qed.

(** What both scanners of [camelToSnake] keep: whether the text is ASCII,
    and the text without its underscores.  A text without upper-case
    letters is returned as it is. *)
Lemma replaceAlnumUpper_keeps (s : string) :
  isASCII (replaceAlnumUpper s) = isASCII s ∧
  withoutSeparators (replaceAlnumUpper s) = withoutSeparators s ∧
  (noUpper s = true → replaceAlnumUpper s = s).
Proof.
  assert (∀ (n : nat) s, (String.length s ≤ n)%nat →
            isASCII (replaceAlnumUpper s) = isASCII s ∧
            withoutSeparators (replaceAlnumUpper s) = withoutSeparators s ∧
            (noUpper s = true → replaceAlnumUpper s = s)) as H.
  { clear s. induction n as [|n IH]; intros [|a r] Hlen;
      try done; [cbn in Hlen; lia |].
    rewrite replaceAlnumUpper_eq. destruct r as [|b t]; [done |].
    cbn [String.length] in Hlen.
    destruct ((isLower a || isDigit a) && isUpper b) eqn:Hm.
    - destruct (IH t ltac:(lia)) as (Ha & Hw & _).
      apply andb_true_iff in Hm as [_ Hb].
      split; [cbn [isASCII]; by rewrite Ha |].
      split; [cbn [withoutSeparators]; cbn; by rewrite Hw |].
      cbn [noUpper]. rewrite Hb. cbn. by rewrite andb_false_r.
    - destruct (IH (String b t) ltac:(cbn; lia)) as (Ha & Hw & Hfix).
      split; [cbn [isASCII] in *; by rewrite Ha |].
      split; [cbn [withoutSeparators] in *; by rewrite Hw |].
      intros [_ Hlow]%andb_true_iff. by rewrite Hfix. }
  by apply (H (String.length s)).
Qed.

Lemma replaceFirstCap_keeps (run : bool) (s : string) :
  isASCII (replaceFirstCap run s) = isASCII s ∧
  withoutSeparators (replaceFirstCap run s) = withoutSeparators s ∧
  (noUpper s = true → replaceFirstCap run s = s).
Proof.
  assert (∀ (n : nat) s run, (String.length s ≤ n)%nat →
            isASCII (replaceFirstCap run s) = isASCII s ∧
            withoutSeparators (replaceFirstCap run s) = withoutSeparators s ∧
            (noUpper s = true → replaceFirstCap run s = s)) as H.
  { clear s run. induction n as [|n IH]; intros [|a r] run Hlen;
      try done; [cbn in Hlen; lia |].
    cbn [String.length] in Hlen.
    assert (isASCII (String a (replaceFirstCap false r))
              = isASCII (String a r) ∧
            withoutSeparators (String a (replaceFirstCap false r))
              = withoutSeparators (String a r) ∧
            (noUpper (String a r) = true →
             String a (replaceFirstCap false r) = String a r)) as Hstep.
    { destruct (IH r false ltac:(lia)) as (Ha & Hw & Hfix).
      split; [cbn [isASCII]; by rewrite Ha |].
      split; [cbn [withoutSeparators]; by rewrite Hw |].
      intros [_ Hlow]%andb_true_iff. by rewrite Hfix. }
    rewrite replaceFirstCap_eq. destruct (run && isLower a).
    - destruct (IH r true ltac:(lia)) as (Ha & Hw & Hfix).
      split; [cbn [isASCII]; by rewrite Ha |].
      split; [cbn [withoutSeparators]; by rewrite Hw |].
      intros [_ Hlow]%andb_true_iff. by rewrite Hfix.
    - destruct r as [|b [|c t]]; [exact Hstep | exact Hstep |].
      destruct (isDot a && isUpper b && isLower c) eqn:Hm; [| exact Hstep].
      cbn [String.length] in Hlen.
      destruct (IH t true ltac:(lia)) as (Ha & Hw & _).
      apply andb_true_iff in Hm as [[_ Hb]%andb_true_iff _].
      split; [cbn [isASCII]; by rewrite Ha |].
      split; [cbn [withoutSeparators]; cbn; by rewrite Hw |].
      cbn [noUpper]. rewrite Hb. cbn. by rewrite andb_false_r. }
  by apply (H (String.length s)).
Qed.

Lemma withoutSeparators_lower (s : string) :
  withoutSeparators (mapBytes lowerByte s)
  = mapBytes lowerByte (withoutSeparators s).
Proof.
  induction s as [|c s IH]; [done |].
  cbn [mapBytes withoutSeparators]. rewrite IH.
  assert (Ascii.eqb (lowerByte c) "_" = Ascii.eqb c "_") as ->;
    [| by destruct (Ascii.eqb c "_")].
  destruct c as [[] [] [] [] [] [] [] []]; reflexivity.
Qed.

(** X18. On an ASCII key [camelToSnake] returns a key in normal form:
    ASCII and without upper-case letters.  It only lowers letters and
    inserts underscores: without the underscores, the result is the key in
    lower case.  A key that is in normal form already, such as a JSON tag
    of [vrmBones], is returned as it is, so [camelToSnake] is idempotent on
    ASCII keys. *)
Theorem camelToSnake_normal_form (k : string) :
  isASCII k = true →
  ∃ k1,
    camelToSnake k = Ok k1 ∧
    isASCII k1 = true ∧ noUpper k1 = true ∧
    withoutSeparators k1 = mapBytes lowerByte (withoutSeparators k) ∧
    camelToSnake k1 = Ok k1 ∧
    (noUpper k = true → k1 = k).
Proof.
  intros Hk. exists (snakeCase k). split; [reflexivity |].
  destruct (replaceFirstCap_keeps false k) as (Ha1 & Hw1 & Hfix1).
  destruct (replaceAlnumUpper_keeps (replaceFirstCap false k))
    as (Ha2 & Hw2 & Hfix2).
  assert (∀ y, isASCII y = true → noUpper y = true → snakeCase y = y) as Hfix.
  { intros y Hy Hlow. unfold snakeCase, strings_ToLower.
    rewrite (proj2 (proj2 (replaceFirstCap_keeps false y)) Hlow).
    rewrite (proj2 (proj2 (replaceAlnumUpper_keeps y)) Hlow).
    by rewrite Hy, noUpper_lower_fixed. }
  assert (snakeCase k
          = mapBytes lowerByte (replaceAlnumUpper (replaceFirstCap false k)))
    as Hsnake.
  { unfold snakeCase, strings_ToLower. by rewrite Ha2, Ha1, Hk. }
  assert (isASCII (snakeCase k) = true) as Hascii
    by (by rewrite Hsnake, isASCII_lower, Ha2, Ha1).
  assert (noUpper (snakeCase k) = true) as Hlow
    by (rewrite Hsnake; apply noUpper_lower).
  split; [done |]. split; [done |]. split; [| split].
  - by rewrite Hsnake, withoutSeparators_lower, Hw2, Hw1.
  - rewrite camelToSnake_snakeCase. f_equal. by apply Hfix.
  - intros Hk'. by apply Hfix.
Qed.

(** ** [randomString] *)





(** ** The environment keys *)

Lemma mapBytes_mapBytes (f g : ascii → ascii) (s : string) :
  mapBytes f (mapBytes g s) = mapBytes (f ∘ g) s.
Proof. induction s as [|c s IH]; [done |]. cbn. by rewrite IH. Qed.

Lemma mapBytes_ext (f g : ascii → ascii) (s : string) :
  (∀ c, f c = g c) → mapBytes f s = mapBytes g s.
Proof. intros H. induction s as [|c s IH]; [done |]. cbn. by rewrite H, IH. Qed.

Lemma length_mapBytes (f : ascii → ascii) (s : string) :
  String.length (mapBytes f s) = String.length s.
Proof. induction s as [|c s IH]; [done |]. cbn. by rewrite IH. Qed.

Lemma isASCII_mapBytes (f : ascii → ascii) (s : string) :
  (∀ c, isASCIIByte (f c) = isASCIIByte c) →
  isASCII (mapBytes f s) = isASCII s.
Proof. intros H. induction s as [|c s IH]; [done |]. cbn. by rewrite H, IH. Qed.

Lemma allBytes_mapBytes (p : ascii → bool) (f : ascii → ascii) (s : string) :
  (∀ c, p (f c) = true) → allBytes p (mapBytes f s) = true.
Proof. intros H. induction s as [|c s IH]; [done |]. cbn. by rewrite H, IH. Qed.

Lemma allBytes_append (p : ascii → bool) (a b : string) :
  allBytes p (a +:+ b) = allBytes p a && allBytes p b.
Proof.
  induction a as [|c a IH]; [by rewrite append_empty_l |].
  rewrite append_cons. cbn [allBytes]. by rewrite IH, andb_assoc.
Qed.

Lemma envKey_ascii (name : string) :
  isASCII name = true →
  envKey name = "FNTWO_" +:+ mapBytes (upperByte ∘ dashToUnderscore) name.
Proof.
  intros Hname. unfold envKey, envPrefix, strings_ToUpper, ReplaceAll_dash.
  rewrite isASCII_mapBytes, Hname, mapBytes_mapBytes.
  - reflexivity.
  - intros c. destruct c as [[] [] [] [] [] [] [] []]; reflexivity.
Qed.

(** X20. The environment key of a flag with an ASCII name: the prefix
    [FNTWO_] and then the name, byte by byte, in upper case and with every
    dash an underscore.  The key holds no lower-case letter and no dash;
    flag names that differ only by case, or by a dash for an underscore,
    share their key; the seven flags [newRootCommand] defines besides
    [config] have seven different keys. *)
Theorem envKey_of_ascii_flag (name : string) :
  isASCII name = true →
  envKey name = "FNTWO_" +:+ mapBytes (upperByte ∘ dashToUnderscore) name ∧
  String.length (envKey name) = 6 + String.length name ∧
  allBytes envByte (envKey name) = true ∧
  envKey (ReplaceAll_dash name) = envKey name ∧
  envKey (strings_ToUpper name) = envKey name ∧
  NoDup (envKey <$> boundFlags).
Proof.
  intros Hname. rewrite !envKey_ascii; try done.
  - split; [done |].
    split; [by rewrite length_append, length_mapBytes |].
    split; [| split; [| split]].
    + rewrite allBytes_append, allBytes_mapBytes; [done |].
      intros c. destruct c as [[] [] [] [] [] [] [] []]; reflexivity.
    + unfold ReplaceAll_dash. rewrite mapBytes_mapBytes. f_equal.
      apply mapBytes_ext. intros c.
      destruct c as [[] [] [] [] [] [] [] []]; reflexivity.
    + unfold strings_ToUpper. rewrite Hname, mapBytes_mapBytes. f_equal.
      apply mapBytes_ext. intros c.
      destruct c as [[] [] [] [] [] [] [] []]; reflexivity.
    + apply (bool_decide_unpack _). vm_compute. exact I.
  - unfold strings_ToUpper. rewrite Hname. rewrite isASCII_mapBytes; [done |].
    intros c. destruct c as [[] [] [] [] [] [] [] []]; reflexivity.
  - unfold ReplaceAll_dash. rewrite isASCII_mapBytes; [done |].
    intros c. destruct c as [[] [] [] [] [] [] [] []]; reflexivity.
Qed.

End Fntwo.

(** * Instances

    The theorems above hold for whatever the Unicode tables of the Go
    library say.  The instances below run on ASCII keys, for which the
    tables are never consulted: [no_unicode_ToLower] and
    [no_unicode_EqualFold] stand in for them. *)

(** C4 (counterexample to the claim as stated).  An update that carries
    only [position] leaves the previous [target] in the canonical camera,
    and that camera is what is published: the write is a merge, and what
    the canonical camera becomes is not determined by the update alone. *)
Lemma camera_update_keeps_omitted_fields :
  writeCamera no_unicode_EqualFold [ReadFrame position_only]
    (mkScene camera_before)
  = (mkScene camera_after, [PoolUpdate camera_after]) ∧
  cam_Target camera_after = cam_Target camera_before ∧
  cam_Target camera_after ≠ zeroPosition ∧
  ¬ (∀ frame scene1 scene2,
       Camera (writeCamera no_unicode_EqualFold [ReadFrame frame] scene1).1
       = Camera (writeCamera no_unicode_EqualFold [ReadFrame frame] scene2).1).
Proof.
  split; [vm_compute; reflexivity |].
  split; [reflexivity |].
  split; [discriminate |].
  intros H.
  specialize (H position_only (mkScene camera_before)
                (mkScene (mkCamera zeroPosition zeroPosition))).
  vm_compute in H. discriminate H.
Qed.

(** C9 (witness): the vocabulary key [LeftUpperLeg]. *)
Lemma normalization_idempotent_witness :
  In "LeftUpperLeg" keyVocabulary ∧
  (∃ k1, normalizeVMCKey no_unicode_ToLower "LeftUpperLeg" = Ok k1 ∧
         normalizeVMCKey no_unicode_ToLower k1 = Ok k1) ∧
  (∃ k1, camelToSnake no_unicode_ToLower "LeftUpperLeg" = Ok k1 ∧
         camelToSnake no_unicode_ToLower k1 = Ok k1).
Proof.
  assert (In "LeftUpperLeg" keyVocabulary) as Hin by (cbn; tauto).
  split; [exact Hin |].
  exact (normalization_idempotent_on_vocabulary no_unicode_ToLower
           "LeftUpperLeg" Hin).
Defined.

(** C7 (witness): [JawOpen] at 1.5 on the initial [liveVRM]. *)
Lemma blend_value_is_clamped_witness :
  wf_vrm liveVRM_init ∧
  fieldIndex no_unicode_EqualFold faceTags "JawOpen" = Some 17 ∧
  ∃ st',
    handleBlendVal no_unicode_EqualFold
      (mkMessage "/VMC/Ext/Blend/Val" [ArgString "JawOpen"; ArgFloat32 f32_1_5])
      liveVRM_init
    = Returned st' ∧
    FaceBlendShapes (BlendShapes st') !! 17 = Some f32_one.
Proof.
  assert (fieldIndex no_unicode_EqualFold faceTags "JawOpen" = Some 17) as Hi
    by (vm_compute; reflexivity).
  split; [exact wf_vrm_init |]. split; [exact Hi |].
  destruct (blend_value_is_clamped no_unicode_ToLower no_unicode_EqualFold
              "/VMC/Ext/Blend/Val"
              "JawOpen" f32_1_5 [] liveVRM_init 17 wf_vrm_init Hi)
    as (Hstore & _).
  destruct (Hstore eq_refl) as (st' & Hrun & _ & Hval).
  exists st'. split; [exact Hrun | exact Hval].
Defined.

(** C5 (witness): two registered receivers, the first one active. *)
Lemma switch_stops_then_starts_witness :
  let receiverMap : gmap string receiverPtr :=
    {[ "VirtualMotionCapture" := Some 0; "Other" := Some 1 ]} in
  let st := New_router receiverMap "VirtualMotionCapture" in
  receiverMap !! "Other" = Some (Some 1) ∧
  activeReceiver st = Some 0 ∧
  activeName (receiverUpdate receiverMap (Ok "Other") st).1 = "Other" ∧
  (receiverUpdate receiverMap (Ok "Other") st).2
  = [CallStop (Some 0); CallStart (Some 1)].
Proof.
  cbn zeta.
  set (receiverMap :=
         ({[ "VirtualMotionCapture" := Some 0; "Other" := Some 1 ]}
          : gmap string receiverPtr)).
  assert (receiverMap !! "Other" = Some (Some 1)) as HB
    by (vm_compute; reflexivity).
  assert (activeReceiver (New_router receiverMap "VirtualMotionCapture")
          = Some 0) as Ha by (vm_compute; reflexivity).
  split; [exact HB |]. split; [exact Ha |].
  pose proof (switch_stops_then_starts receiverMap
                (New_router receiverMap "VirtualMotionCapture")
                "Other" 0 1 HB Ha) as H.
  destruct (receiverUpdate receiverMap (Ok "Other")
              (New_router receiverMap "VirtualMotionCapture")) as [st' calls].
  destruct H as (Hname & _ & Hcalls & _).
  split; [exact Hname | exact Hcalls].
Defined.

(** C6 (witness): an update on a pool with two clients. *)
Lemma update_delivers_once_witness :
  poolWF two_clients ∧
  ∃ p',
    update (map_to_list (Clients two_clients)) camera_before two_clients
    = Returned p' ∧
    deliveries (heap p') = 2.
Proof.
  assert (poolWF two_clients) as Hwf by (apply add_wf, add_wf, newPool_wf).
  split; [exact Hwf |].
  destruct (update_delivers_once two_clients
              (map_to_list (Clients two_clients)) camera_before Hwf
              (reflexivity _))
    as (p' & Hrun & _ & _ & _ & Hcount & _).
  exists p'. split; [exact Hrun |].
  rewrite Hcount. vm_compute. reflexivity.
Defined.

(** X3 (witness): a NaN as the first coordinate of [Hips]. *)
Lemma non_finite_bone_is_dropped_witness :
  forallb isFinite
    [S754_nan; f32_zero; f32_zero; f32_zero; f32_zero; f32_zero; f32_one]
  = false ∧
  handleBonePos no_unicode_ToLower no_unicode_EqualFold
    (mkMessage "/VMC/Ext/Bone/Pos"
       (ArgString "Hips" ::
        (ArgFloat32 <$>
         [S754_nan; f32_zero; f32_zero; f32_zero; f32_zero; f32_zero;
          f32_one])))
    liveVRM_init
  = Returned liveVRM_init.
Proof.
  assert (forallb isFinite
            [S754_nan; f32_zero; f32_zero; f32_zero; f32_zero; f32_zero;
             f32_one] = false) as H by reflexivity.
  split; [exact H |].
  exact (non_finite_bone_is_dropped no_unicode_ToLower no_unicode_EqualFold
           "/VMC/Ext/Bone/Pos" "Hips"
           S754_nan f32_zero f32_zero f32_zero f32_zero f32_zero f32_one []
           liveVRM_init H).
Defined.

(** X6 (witness): [JawOpen] at 1.5, then [Hips] at the origin. *)
Lemma pose_invariant_witness :
  ∃ st,
    run no_unicode_ToLower no_unicode_EqualFold
      [BlendVal (mkMessage "/VMC/Ext/Blend/Val"
                   [ArgString "JawOpen"; ArgFloat32 f32_1_5]);
       BonePos (mkMessage "/VMC/Ext/Bone/Pos"
                  (ArgString "Hips" ::
                   (ArgFloat32 <$>
                    [f32_zero; f32_zero; f32_zero; f32_zero; f32_zero;
                     f32_zero; f32_one])))]
      liveVRM_init
    = Returned st ∧
    poseOK st.
Proof.
  eexists. split; [vm_compute; reflexivity |].
  apply (pose_invariant no_unicode_ToLower no_unicode_EqualFold
           [BlendVal (mkMessage "/VMC/Ext/Blend/Val"
                        [ArgString "JawOpen"; ArgFloat32 f32_1_5]);
            BonePos (mkMessage "/VMC/Ext/Bone/Pos"
                       (ArgString "Hips" ::
                        (ArgFloat32 <$>
                         [f32_zero; f32_zero; f32_zero; f32_zero; f32_zero;
                          f32_zero; f32_one])))]).
  vm_compute. reflexivity.
Defined.

(** X7 (witness): a blend message and a bone message. *)
Lemma deltas_on_different_fields_commute_witness :
  let c1 := BlendVal (mkMessage "/VMC/Ext/Blend/Val"
                        [ArgString "JawOpen"; ArgFloat32 f32_1_5]) in
  let c2 := BonePos (mkMessage "/VMC/Ext/Bone/Pos"
                       (ArgString "Hips" ::
                        (ArgFloat32 <$>
                         [f32_zero; f32_zero; f32_zero; f32_zero; f32_zero;
                          f32_zero; f32_one]))) in
  touches no_unicode_ToLower no_unicode_EqualFold c1
  ≠ touches no_unicode_ToLower no_unicode_EqualFold c2 ∧
  run no_unicode_ToLower no_unicode_EqualFold [c1; c2] liveVRM_init
  = run no_unicode_ToLower no_unicode_EqualFold [c2; c1] liveVRM_init.
Proof.
  cbn zeta.
  assert (touches no_unicode_ToLower no_unicode_EqualFold
            (BlendVal (mkMessage "/VMC/Ext/Blend/Val"
                         [ArgString "JawOpen"; ArgFloat32 f32_1_5]))
          ≠ touches no_unicode_ToLower no_unicode_EqualFold
              (BonePos (mkMessage "/VMC/Ext/Bone/Pos"
                          (ArgString "Hips" ::
                           (ArgFloat32 <$>
                            [f32_zero; f32_zero; f32_zero; f32_zero;
                             f32_zero; f32_zero; f32_one]))))) as H
    by (vm_compute; discriminate).
  split; [exact H |].
  exact (deltas_on_different_fields_commute no_unicode_ToLower
           no_unicode_EqualFold _ _ liveVRM_init H).
Defined.

(** X9 (witness): a session [B] that sends one frame, beside a client
    [A]. *)
Lemma listen_session_witness :
  let p := add "A" newPool in
  let frames := [(position_only, map_to_list (Clients (add "B" p)))] in
  poolWF p ∧ Clients p !! "B" = None ∧
  ∃ p',
    listen no_unicode_EqualFold "B"
      (((λ fo, (ReadFrame fo.1, fo.2)) <$> frames) ++ [(ReadFailed, [])]) p
    = Returned (p', true) ∧
    Clients p' = Clients p ∧
    delivered p' 0 = [sentFor no_unicode_EqualFold position_only].
Proof.
  cbn zeta.
  assert (poolWF (add "A" newPool)) as Hwf by (apply add_wf, newPool_wf).
  assert (Clients (add "A" newPool) !! "B" = None) as Hfree
    by (vm_compute; reflexivity).
  split; [exact Hwf |]. split; [exact Hfree |].
  destruct (listen_session no_unicode_EqualFold (add "A" newPool) "B"
              [(position_only,
                map_to_list (Clients (add "B" (add "A" newPool))))]
              ReadFailed [] [] Hwf Hfree)
    as (p' & Hrun & _ & Hcl & Hdel & _).
  { constructor; [| constructor].
    split; [vm_compute; reflexivity | reflexivity]. }
  { reflexivity. }
  exists p'. split; [exact Hrun |]. split; [exact Hcl |].
  exact (Hdel "A" (mkClient "A" (Some 0)) 0 eq_refl eq_refl).
Defined.

(** X12 (witness): a frame whose [target] is a string. *)
Lemma ill_typed_frame_is_stored_unpublished_witness :
  notAStruct (JString "origin") = true ∧
  writeCamera no_unicode_EqualFold
    [ReadFrame
       (JObject [("target", JString "origin");
                 ("position",
                  renderPosition
                    (mkPositionUpdate (Some f32_0_42) None None))])]
    (mkScene camera_before)
  = (mkScene
       (mkCamera (mkPosition f32_0_42 f32_one f32_one)
                 (cam_Target camera_before)),
     []).
Proof.
  split; [reflexivity |].
  exact (ill_typed_frame_is_stored_unpublished no_unicode_EqualFold
           (JString "origin") (mkPositionUpdate (Some f32_0_42) None None)
           [] (mkScene camera_before) eq_refl).
Defined.

(** X14 (witness): a registered receiver and a name without one. *)
Lemma accepted_receivers_are_listed_witness :
  let receiverMap : gmap string receiverPtr :=
    {[ "VirtualMotionCapture" := Some 0; "Other" := None ]} in
  let st := New_router receiverMap "VirtualMotionCapture" in
  "Other" ∈ receiverNames (map_to_list receiverMap) ∧
  receiverUpdate receiverMap (Ok "Other") st = (st, []).
Proof.
  cbn zeta.
  set (receiverMap :=
         ({[ "VirtualMotionCapture" := Some 0; "Other" := None ]}
          : gmap string receiverPtr)).
  destruct (accepted_receivers_are_listed receiverMap
              (map_to_list receiverMap) "Other"
              (New_router receiverMap "VirtualMotionCapture")
              (reflexivity _))
    as (_ & _ & Hlisted).
  assert (receiverMap !! "Other" = Some None) as Hnil
    by (vm_compute; reflexivity).
  assert ("Other" ∈ receiverNames (map_to_list receiverMap)) as Hin.
  { apply list_elem_of_fmap. exists ("Other", None).
    split; [reflexivity |]. apply elem_of_map_to_list. exact Hnil. }
  split; [exact Hin |].
  exact (proj2 (Hlisted Hin) Hnil).
Defined.

(** X16 (witness): [JAWOPEN] and [jawOpen]. *)
Lemma keys_select_without_case_witness :
  isASCII "JAWOPEN" = true ∧ isASCII "jawOpen" = true ∧
  mapBytes lowerByte "JAWOPEN" = mapBytes lowerByte "jawOpen" ∧
  fieldIndex no_unicode_EqualFold faceTags "JAWOPEN"
  = fieldIndex no_unicode_EqualFold faceTags "jawOpen".
Proof.
  split; [reflexivity |]. split; [reflexivity |]. split; [reflexivity |].
  exact (proj1 (keys_select_without_case no_unicode_EqualFold
                  "JAWOPEN" "jawOpen" eq_refl eq_refl eq_refl)).
Defined.

(** X17 (witness): [LeftHand_l]. *)
Lemma normalizeVMCKey_normal_form_witness :
  isASCII "LeftHand_l" = true ∧
  ∃ k1,
    normalizeVMCKey no_unicode_ToLower "LeftHand_l" = Ok k1 ∧
    noUpper k1 = true ∧ stripSuffix "_l" k1 = None.
Proof.
  split; [reflexivity |].
  destruct (normalizeVMCKey_normal_form no_unicode_ToLower "LeftHand_l"
              eq_refl) as (k1 & Hk1 & _ & Hlow & Hl & _).
  exists k1. split; [exact Hk1 |]. split; [exact Hlow | exact Hl].
Defined.

(** X18 (witness): [LeftUpperLeg]. *)
Lemma camelToSnake_normal_form_witness :
  isASCII "LeftUpperLeg" = true ∧
  ∃ k1,
    camelToSnake no_unicode_ToLower "LeftUpperLeg" = Ok k1 ∧
    withoutSeparators k1 = "leftupperleg" ∧
    camelToSnake no_unicode_ToLower k1 = Ok k1.
Proof.
  split; [reflexivity |].
  destruct (camelToSnake_normal_form no_unicode_ToLower "LeftUpperLeg"
              eq_refl) as (k1 & Hk1 & _ & _ & Hw & Hidem & _).
  exists k1. split; [exact Hk1 |]. split; [exact Hw | exact Hidem].
Defined.


(** X20 (witness): the flag [update-frequency]. *)
Lemma envKey_of_ascii_flag_witness :
  isASCII "update-frequency" = true ∧
  envKey no_unicode_ToUpper "update-frequency" = "FNTWO_UPDATE_FREQUENCY".
Proof.
  split; [reflexivity |].
  exact (proj1 (envKey_of_ascii_flag no_unicode_ToUpper "update-frequency"
                  eq_refl)).
Defined.
